(** * Zettlr: token list input, recent documents, open documents and the
      spellchecker mode

    A shallow embedding of
    - [TokenList.vue] ([handleKey], [removeToken]),
    - the [RecentDocsProvider] service ([add], [clear], [get], [hasDocs]),
    - the [openFiles] watcher of [Editor.vue],
    - the CodeMirror spellchecker mode ([check] with its cache, the
      [invalidate-dict] listener, [token]), with the spans, line records
      and re-scan controller that the design document reads over it. *)

From Stdlib Require Import String Ascii NArith ZArith Sorted.
From stdpp Require Import base option list gmap.

Set Warnings "-register-all".

Local Open Scope N_scope.
Local Open Scope nat_scope.

(** ** JavaScript strings

    A JavaScript string is a sequence of UTF-16 code units. *)

Module JS.

Abbreviation char := N.
Abbreviation str := (list N).

(** ASCII literals, for examples. *)
Definition lit (s : string) : str :=
  map N_of_ascii (list_ascii_of_string s).

(** [WhiteSpace] and [LineTerminator] of ECMAScript: what
    [String.prototype.trim] removes. *)
Definition is_whitespace (c : char) : bool :=
  ((9 <=? c) && (c <=? 13))%N
  || (c =? 32)%N || (c =? 160)%N || (c =? 5760)%N
  || ((8192 <=? c) && (c <=? 8202))%N
  || (c =? 8232)%N || (c =? 8233)%N || (c =? 8239)%N
  || (c =? 8287)%N || (c =? 12288)%N || (c =? 65279)%N.

Fixpoint takeWhile {A} (p : A → bool) (l : list A) : list A :=
  match l with
  | [] => []
  | x :: l' => if p x then x :: takeWhile p l' else []
  end.

Fixpoint dropWhile {A} (p : A → bool) (l : list A) : list A :=
  match l with
  | [] => []
  | x :: l' => if p x then dropWhile p l' else l
  end.

Definition trimStart (s : str) : str := dropWhile is_whitespace s.
Definition trimEnd (s : str) : str := rev (dropWhile is_whitespace (rev s)).

(** [String.prototype.trim] *)
Definition trim (s : str) : str := trimEnd (trimStart s).

(** [Array.prototype.includes] on an array of strings. *)
Definition includes (arr : list str) (x : str) : bool :=
  bool_decide (x ∈ arr).

Definition whitespace_only (s : str) : Prop := Forall (λ c, is_whitespace c = true) s.

End JS.

(** ** TokenList.vue *)

Module TokenList.
Import JS.

(** The component: the [value] prop and the [inputValue] data field. *)
Record component := Component {
  value : list str;
  inputValue : str
}.

(** What one handler call does: the payload of [$emit('input', arr)], if
    the handler emits, and the component's [inputValue] afterwards. *)
Record outcome := Outcome {
  emitted : option (list str);
  inputValue' : str
}.

Definition keys : list str :=
  [lit "Space"; lit "Enter"; lit "Comma"; lit "Tab"].

(** [handleKey], with [code] standing for [event.code]. *)
Definition handleKey (code : str) (c : component) : outcome :=
  if bool_decide (trim (inputValue c) = []) then
    Outcome None (inputValue c)
  else if includes keys code then
    let arr := map (λ token, token) (value c) in
    if negb (includes arr (trim (inputValue c))) then
      Outcome (Some (arr ++ [trim (inputValue c)])) []
    else
      Outcome None []
  else
    Outcome None (inputValue c).

(** [Array.prototype.splice(idx, 1)] on a copy. *)
Definition splice1 {A} (idx : nat) (arr : list A) : list A :=
  take idx arr ++ drop (S idx) arr.

(** [removeToken] always emits. *)
Definition removeToken (idx : nat) (c : component) : outcome :=
  let arr := map (λ token, token) (value c) in
  Outcome (Some (splice1 idx arr)) (inputValue c).

End TokenList.

(** ** JavaScript values, objects and JSON

    Objects live in a heap and are handled through references, so that two
    arrays can share (or not share) their elements.  Only plain data is
    modelled: no functions, symbols or [toJSON] methods; numbers are the
    integers together with [NaN] and the two infinities. *)

Module Heap.
Import JS.

Inductive num := Fin (z : Z) | NaN | PosInfinity | NegInfinity.

Inductive val :=
| VUndefined
| VNull
| VBool (b : bool)
| VNum (n : num)
| VStr (s : str)
| VRef (l : nat).

(** An object is an array or a record of own enumerable properties, in
    enumeration order. *)
Inductive obj :=
| OArr (elems : list val)
| OObj (props : list (str * val)).

(** The heap: a reference is an index, allocation appends. *)
Abbreviation heap := (list obj).

Definition alloc (o : obj) (h : heap) : heap * val :=
  (h ++ [o], VRef (length h)).

#[global] Instance num_eq_dec : EqDecision num.
Proof. solve_decision. Defined.
#[global] Instance val_eq_dec : EqDecision val.
Proof. solve_decision. Defined.

(** JSON texts, as their syntax trees. *)
Inductive json :=
| JNull
| JBool (b : bool)
| JNum (z : Z)
| JStr (s : str)
| JArr (js : list json)
| JObj (ps : list (str * json)).

(** [SerializeJSONProperty]: [None] is the [TypeError] thrown on a cyclic
    structure, [Some None] is [undefined] (nothing to serialize).  [stack]
    holds the objects being serialized, as in the standard's algorithm;
    an object met again while on the stack is a cycle.  In an array
    [undefined] is written as [null], in a record the property is left
    out; [NaN] and the infinities are written as [null]. *)
Fixpoint serialize (fuel : nat) (stack : list nat) (h : heap) (v : val)
  : option (option json) :=
  match v with
  | VUndefined => Some None
  | VNull => Some (Some JNull)
  | VBool b => Some (Some (JBool b))
  | VNum (Fin z) => Some (Some (JNum z))
  | VNum _ => Some (Some JNull)
  | VStr s => Some (Some (JStr s))
  | VRef l =>
      if bool_decide (l ∈ stack) then None else
      match fuel with
      | 0 => None
      | S fuel =>
          match h !! l with
          | None => None
          | Some (OArr elems) =>
              js ← mapM (λ e, default JNull <$> serialize fuel (l :: stack) h e) elems;
              Some (Some (JArr js))
          | Some (OObj props) =>
              ps ← mapM (λ p, pair p.1 <$> serialize fuel (l :: stack) h p.2) props;
              Some (Some (JObj (omap (λ q, pair q.1 <$> q.2) ps)))
          end
      end
  end.

(** [JSON.stringify(value)].  The stack never repeats an object, so it is
    never longer than the heap, and the fuel below is never used up. *)
Definition stringify (h : heap) (v : val) : option (option json) :=
  serialize (S (length h)) [] h v.

(** [JSON.stringify] of an array that is held by its owner only. *)
Definition stringify_array (h : heap) (elems : list val) : option json :=
  js ← mapM (λ e, default JNull <$> stringify h e) elems;
  Some (JArr js).

(** Runs an allocating function over a list, from left to right. *)
Definition thread {A B} (f : A → heap → heap * B)
  : list A → heap → heap * list B :=
  fix go (xs : list A) (h : heap) : heap * list B :=
    match xs with
    | [] => (h, [])
    | x :: xs =>
        let '(h, y) := f x h in
        let '(h, ys) := go xs h in
        (h, y :: ys)
    end.

(** [JSON.parse]: every array and record of the text is a new object. *)
Fixpoint parse (j : json) (h : heap) : heap * val :=
  match j with
  | JNull => (h, VNull)
  | JBool b => (h, VBool b)
  | JNum z => (h, VNum (Fin z))
  | JStr s => (h, VStr s)
  | JArr js =>
      let '(h, vs) := thread parse js h in
      alloc (OArr vs) h
  | JObj ps =>
      let '(h, vs) :=
        thread (λ p h, let '(h, v) := parse p.2 h in (h, (p.1, v))) ps h in
      alloc (OObj vs) h
  end.

(** The value a reference stands for, read through the heap. *)
Inductive tree :=
| TUndefined
| TNull
| TBool (b : bool)
| TNum (n : num)
| TStr (s : str)
| TArr (ts : list tree)
| TObj (ps : list (str * tree)).

Inductive denotes (h : heap) : val → tree → Prop :=
| den_undefined : denotes h VUndefined TUndefined
| den_null : denotes h VNull TNull
| den_bool b : denotes h (VBool b) (TBool b)
| den_num n : denotes h (VNum n) (TNum n)
| den_str s : denotes h (VStr s) (TStr s)
| den_arr l elems ts :
    h !! l = Some (OArr elems) →
    Forall2 (denotes h) elems ts →
    denotes h (VRef l) (TArr ts)
| den_obj l props ps :
    h !! l = Some (OObj props) →
    Forall2 (λ p q, p.1 = q.1 ∧ denotes h p.2 q.2) props ps →
    denotes h (VRef l) (TObj ps).

(** Two values are structurally equal when they stand for the same tree,
    each in its heap. *)
Definition structurally_equal (h1 : heap) (v1 : val) (h2 : heap) (v2 : val) : Prop :=
  ∃ t, denotes h1 v1 t ∧ denotes h2 v2 t.

(** The objects that can be reached from a value. *)
Inductive reaches (h : heap) : val → nat → Prop :=
| reaches_here l : reaches h (VRef l) l
| reaches_elem l elems e l' :
    h !! l = Some (OArr elems) → e ∈ elems → reaches h e l' →
    reaches h (VRef l) l'
| reaches_prop l props p l' :
    h !! l = Some (OObj props) → p ∈ props → reaches h p.2 l' →
    reaches h (VRef l) l'.

(** Plain JSON data: what [JSON.stringify] writes without loss. *)
Fixpoint is_json (t : tree) : bool :=
  match t with
  | TUndefined => false
  | TNum (Fin _) => true
  | TNum _ => false
  | TArr ts => forallb is_json ts
  | TObj ps => forallb (λ p, is_json p.2) ps
  | _ => true
  end.

Fixpoint to_json (t : tree) : option json :=
  match t with
  | TUndefined => None
  | TNull => Some JNull
  | TBool b => Some (JBool b)
  | TNum (Fin z) => Some (JNum z)
  | TNum _ => Some JNull
  | TStr s => Some (JStr s)
  | TArr ts => Some (JArr ((λ t, default JNull (to_json t)) <$> ts))
  | TObj ps => Some (JObj (omap (λ p, pair p.1 <$> to_json p.2) ps))
  end.

Fixpoint of_json (j : json) : tree :=
  match j with
  | JNull => TNull
  | JBool b => TBool b
  | JNum z => TNum (Fin z)
  | JStr s => TStr s
  | JArr js => TArr (of_json <$> js)
  | JObj ps => TObj ((λ p, (p.1, of_json p.2)) <$> ps)
  end.

(** What a value reads as after a round trip through JSON. *)
Definition json_image (t : tree) : tree :=
  of_json (default JNull (to_json t)).

(** The number of nodes of a tree. *)
Fixpoint tsize (t : tree) : nat :=
  match t with
  | TArr ts => S (foldr (λ t n, tsize t + n) 0 ts)
  | TObj ps => S (foldr (λ p n, tsize p.2 + n) 0 ps)
  | _ => 1
  end.

(** A value, or an object, that refers to nothing below the address [n]. *)
Definition val_fresh (n : nat) (v : val) : Prop :=
  match v with
  | VRef l => n ≤ l
  | _ => True
  end.

Definition obj_fresh (n : nat) (o : obj) : Prop :=
  match o with
  | OArr elems => Forall (val_fresh n) elems
  | OObj props => Forall (λ p, val_fresh n p.2) props
  end.

(** A value, or an object, that refers to nothing at the address [n] or
    above. *)
Definition val_below (n : nat) (v : val) : Prop :=
  match v with
  | VRef l => l < n
  | _ => True
  end.

Definition obj_below (n : nat) (o : obj) : Prop :=
  match o with
  | OArr elems => Forall (val_below n) elems
  | OObj props => Forall (λ p, val_below n p.2) props
  end.

(** What one allocating step guarantees besides: the new objects and the
    result refer to nothing beyond the heap as it is afterwards. *)
Definition encloses {A B} (G : nat → B → Prop)
    (f : A → heap → heap * B) (x : A) : Prop :=
  ∀ h, ∃ new,
    (f x h).1 = h ++ new
    ∧ Forall (obj_below (length (h ++ new))) new
    ∧ G (length (h ++ new)) (f x h).2.

(** What one allocating step guarantees: the heap grows at its end, the new
    objects and the result refer to new objects only, and the result is
    related by [R] to the input. *)
Definition allocates {A B} (F : nat → B → Prop) (R : heap → B → A → Prop)
    (f : A → heap → heap * B) (x : A) : Prop :=
  ∀ h, ∃ new,
    (f x h).1 = h ++ new
    ∧ Forall (obj_fresh (length h)) new
    ∧ F (length h) (f x h).2
    ∧ R (f x h).1 (f x h).2 x.

End Heap.

(** ** RecentDocsProvider: the list of recent documents *)

Module RecentDocs.
Import JS.

(** What the provider does besides updating its list: calls into the
    application's recent-documents menu, and the ['update'] event. *)
Inductive effect :=
| AddRecentDocument (p : str)
| ClearRecentDocuments
| EmitUpdate.

#[global] Instance effect_eq_dec : EqDecision effect.
Proof. solve_decision. Defined.

Section Provider.
(** A document descriptor ([MDFileMeta | CodeFileMeta]); of its fields the
    provider reads [path] only.  Equality on [Doc] is the identity [===]
    of the descriptor objects. *)
Context {Doc : Type} `{EqDecision Doc}.
Variable path : Doc → str.

(** [Array.prototype.find] *)
Definition find (p : Doc → Prop) `{∀ e, Decision (p e)} (arr : list Doc) : option Doc :=
  snd <$> list_find p arr.

(** [Array.prototype.indexOf]: the first index holding [x], else [-1]. *)
Definition indexOf (arr : list Doc) (x : Doc) : Z :=
  match list_find (λ e, e = x) arr with
  | Some (i, _) => Z.of_nat i
  | None => (-1)%Z
  end.

(** [Array.prototype.splice(start, deleteCount)], the array afterwards:
    a negative [start] counts from the end, and both are clamped. *)
Definition splice (start deleteCount : Z) (arr : list Doc) : list Doc :=
  let len := Z.of_nat (length arr) in
  let actualStart :=
    (if start <? 0 then Z.max (len + start) 0 else Z.min start len)%Z in
  let actualDeleteCount :=
    Z.min (Z.max deleteCount 0) (len - actualStart)%Z in
  take (Z.to_nat actualStart) arr
    ++ drop (Z.to_nat actualStart + Z.to_nat actualDeleteCount) arr.

(** [Array.prototype.unshift] *)
Definition unshift (x : Doc) (arr : list Doc) : list Doc := x :: arr.

(** [Array.prototype.slice(0, n)] *)
Definition slice0 (n : nat) (arr : list Doc) : list Doc := take n arr.

(** The new value of [_recentDocs] after [add(doc)]. *)
Definition add_docs (doc : Doc) (recentDocs : list Doc) : list Doc :=
  let found := find (λ e, path e = path doc) recentDocs in
  let recentDocs :=
    match found with
    | Some found => splice (indexOf recentDocs found) 1 recentDocs
    | None => recentDocs
    end in
  let recentDocs := unshift doc recentDocs in
  slice0 100 recentDocs.

Record provider := Provider {
  recentDocs : list Doc;
  trace : list effect
}.

(** The constructor. *)
Definition init : provider := Provider [] [].

Definition on_desktop (platform : str) : bool :=
  includes [lit "darwin"; lit "win32"] platform.

(** [global.recentDocs.add] *)
Definition add (platform : str) (doc : Doc) (p : provider) : provider :=
  Provider (add_docs doc (recentDocs p))
    (trace p
       ++ (if on_desktop platform then [AddRecentDocument (path doc)] else [])
       ++ [EmitUpdate]).

(** [global.recentDocs.clear] *)
Definition clear (platform : str) (p : provider) : provider :=
  Provider []
    (trace p
       ++ (if on_desktop platform then [ClearRecentDocuments] else [])
       ++ [EmitUpdate]).

(** [global.recentDocs.hasDocs] *)
Definition hasDocs (p : provider) : bool :=
  bool_decide (0 < length (recentDocs p)).

(** The states the provider can be in: [_recentDocs] is private, it starts
    as the constructor's empty list, and only [add] and [clear] assign it.
    So a state is what a sequence of calls leaves behind. *)
Inductive call :=
| Add (platform : str) (doc : Doc)
| Clear (platform : str).

Definition perform (p : provider) (c : call) : provider :=
  match c with
  | Add platform doc => add platform doc p
  | Clear platform => clear platform p
  end.

Definition run (calls : list call) : provider := foldl perform init calls.

Definition paths (l : list Doc) : list str := path <$> l.

(** The platform a call runs on. *)
Definition platform_of (c : call) : str :=
  match c with
  | Add platform _ => platform
  | Clear platform => platform
  end.

(** What holds of [_recentDocs] in every state of the provider. *)
Definition recent_inv (l : list Doc) : Prop :=
  length l ≤ 100 ∧ NoDup (paths l).

End Provider.

Import Heap.

(** [global.recentDocs.get]: [JSON.parse(JSON.stringify(this._recentDocs))],
    run in the heap [h] that holds the descriptors.  [None] is an exception
    thrown by [JSON.stringify]. *)
Definition get (h : heap) (p : @provider val) : option (heap * val) :=
  j ← stringify_array h (recentDocs p);
  Some (parse j h).

(** One descriptor, with a nested array of tags. *)
Definition sample_heap : heap :=
  [OObj [(lit "path", VStr (lit "/a.md")); (lit "tags", VRef 1)];
   OArr [VStr (lit "todo")]].

Definition sample_tree : tree :=
  TObj [(lit "path", TStr (lit "/a.md")); (lit "tags", TArr [TStr (lit "todo")])].

End RecentDocs.

(** ** Editor.vue: the documents held for the open files *)

Module Editor.
Import JS.

Section OpenDocuments.
(** An editor document ([{ path, mode, cmDoc, ... }]) and a file descriptor
    of the store's [openFiles]; of both the watcher reads [path] only.
    Equality on [Doc] is the identity of the document objects. *)
Context {Doc : Type} `{EqDecision Doc} {File : Type}.
Variable docPath : Doc → str.
Variable filePath : File → str.

(** [this.openFiles.find(descriptor => descriptor.path === doc.path)] *)
Definition found (openFiles : list File) (doc : Doc) : option File :=
  RecentDocs.find (λ descriptor, filePath descriptor = docPath doc) openFiles.

(** The [for (const doc of this.openDocuments)] loop of the [openFiles]
    watcher.  The array iterator keeps an index and reads the array anew
    at every step, so it sees the removals the body makes.  Every step
    moves the index on and the array never grows, so its length at the
    start is fuel enough. *)
Fixpoint iterate (fuel : nat) (openFiles : list File) (index : nat)
    (openDocuments : list Doc) : list Doc :=
  match fuel with
  | 0 => openDocuments
  | S fuel =>
      match openDocuments !! index with
      | None => openDocuments
      | Some doc =>
          let openDocuments :=
            match found openFiles doc with
            | None =>
                let idx := RecentDocs.indexOf openDocuments doc in
                RecentDocs.splice idx 1 openDocuments
            | Some _ => openDocuments
            end in
          iterate fuel openFiles (S index) openDocuments
      end
  end.

(** The [openFiles] watcher: [openDocuments] afterwards. *)
Definition openFilesWatcher (openFiles : list File) (openDocuments : list Doc)
  : list Doc :=
  iterate (length openDocuments) openFiles 0 openDocuments.

(** The document's file is still open. *)
Definition stillOpen (openFiles : list File) (doc : Doc) : Prop :=
  is_Some (found openFiles doc).

(** One pass over the list that drops a document whose file is closed and
    then does not look at the document after it. *)
Fixpoint sweep (openFiles : list File) (docs : list Doc) : list Doc :=
  match docs with
  | [] => []
  | doc :: docs =>
      match found openFiles doc with
      | Some _ => doc :: sweep openFiles docs
      | None =>
          match docs with
          | [] => []
          | next :: docs => next :: sweep openFiles docs
          end
      end
  end.

(** No document with a closed file comes right after another one. *)
Fixpoint closed_apart (openFiles : list File) (docs : list Doc) : Prop :=
  match docs with
  | [] => True
  | doc :: docs =>
      (found openFiles doc = None →
       match docs with
       | [] => True
       | next :: _ => is_Some (found openFiles next)
       end)
      ∧ closed_apart openFiles docs
  end.

End OpenDocuments.

End Editor.

(** ** The spellchecker mode: the dictionary cache, [token], and the
    annotation core around them

    [check], the cache with its listener and [token] are those of the
    CodeMirror spellchecker mode.  Spans, line records and the re-scan
    controller are the vocabulary of the design document, read over the
    tokens of the mode. *)

Module Spellcheck.
Import JS.

(** *** The dictionary cache *)

(** What [ipcRenderer.sendSync('dictionary-provider', ...)] answers to the
    command [check] for a term: [undefined] ([None]) as long as the
    dictionary is not loaded, else whether the term is correct. *)
Definition dictionary := str → option bool.

(** [spellcheckCache], the hashmap of the module (an object without
    prototype), together with the messages sent to the dictionary
    provider so far and their answers; nothing reads [queries]. *)
Record Cache := mkCache {
  spellcheckCache : gmap str bool;
  queries : list (str * option bool)
}.

(** [Object.create(null)], before any message is sent. *)
Definition emptyCache : Cache := mkCache ∅ [].

(** The listener on [dictionary-provider] messages: the command
    [invalidate-dict] replaces the hashmap by a new one, any other command
    leaves it. *)
Definition onDictionaryProvider (command : str) (c : Cache) : Cache :=
  if bool_decide (command = lit "invalidate-dict")
  then mkCache ∅ (queries c)
  else c.

(** The pattern of [term.replace(/.../g, "'")] in [check]: nine quotation
    characters in a row.  The pattern has no brackets, so it is no
    character class: it matches these nine characters in this order. *)
Definition smartQuotes : str :=
  [8217; 8216; 8218; 8249; 8250; 187; 8220; 8221; 12301]%N.

(** [String.prototype.replace] with a global pattern that is a literal
    string: every occurrence from the left, without overlaps, is replaced.
    [skip] counts the characters of an occurrence that are still to be
    passed over. *)
Fixpoint replaceAll (pattern replacement : str) (skip : nat) (s : str) : str :=
  match s with
  | [] => []
  | ch :: s' =>
      match skip with
      | S skip => replaceAll pattern replacement skip s'
      | 0 =>
          if bool_decide (pattern `prefix_of` s)
          then replacement ++ replaceAll pattern replacement (length pattern - 1) s'
          else ch :: replaceAll pattern replacement 0 s'
      end
  end.

(** [saneTerm] of [check]. *)
Definition sane (term : str) : str := replaceAll smartQuotes (lit "'") 0 term.

(** [check(term)]: the cached answer if there is one; else one message to
    the dictionary provider, whose answer is cached unless it is
    [undefined], which counts as correct. *)
Definition check (d : dictionary) (term : str) (c : Cache) : bool * Cache :=
  let saneTerm := sane term in
  match spellcheckCache c !! saneTerm with
  | Some cached => (cached, c)
  | None =>
      let correct := d saneTerm in
      let sent := queries c ++ [(saneTerm, correct)] in
      match correct with
      | None => (true, mkCache (spellcheckCache c) sent)
      | Some correct =>
          (correct, mkCache (<[saneTerm := correct]> (spellcheckCache c)) sent)
      end
  end.

(** What the cache, backed by the dictionary, says of a sane term: the
    entry if there is one, else the dictionary's answer, [undefined]
    counting as correct. *)
Definition answer (d : dictionary) (c : Cache) (saneTerm : str) : bool :=
  match spellcheckCache c !! saneTerm with
  | Some cached => cached
  | None => default true (d saneTerm)
  end.

(** *** CodeMirror's [StringStream]

    The stream that CodeMirror hands to [token]: the line and the
    position in it. *)

(** [content] is the stream's [string]. *)
Record StringStream := mkStream {
  content : str;
  pos : nat
}.

(** [stream.peek()]: the character at the position, [undefined] at the end
    of the line. *)
Definition peek (stream : StringStream) : option char :=
  content stream !! pos stream.

Definition advance (n : nat) (stream : StringStream) : StringStream :=
  mkStream (content stream) (pos stream + n).

(** [stream.next()]: one character on, unless at the end of the line. *)
Definition next (stream : StringStream) : StringStream :=
  match peek stream with
  | Some _ => advance 1 stream
  | None => stream
  end.

(** [stream.string.slice(stream.pos)] *)
Definition remaining (stream : StringStream) : str :=
  drop (pos stream) (content stream).

(** [stream.eol()] *)
Definition eol (stream : StringStream) : bool :=
  bool_decide (length (content stream) ≤ pos stream).

(** A regular expression as [stream.match] uses it: applied to the text
    that remains, it answers with the length of its match if it matches
    right at the position, and with [None] if it matches nowhere or only
    further on. *)
Definition regexp := str → option nat.

(** [stream.match(re)]: on a match at the position the stream moves past
    it; else the stream stays and the answer is [null]. *)
Definition stream_match (re : regexp) (stream : StringStream) : option StringStream :=
  (λ n, advance n stream) <$> re (remaining stream).

(** *** The mode's constants and configuration *)

(** [delim]: the separators of words.  The two blanks are a space and a
    no-break space. *)
Definition delim : str :=
  [33; 34; 35; 36; 37; 38; 40; 41; 42; 43; 44; 45; 46; 47; 58; 59; 60; 61;
   62; 191; 63; 64; 91; 92; 93; 94; 95; 96; 123; 124; 125; 126; 32; 160;
   171; 8222; 12300; 12302; 12303; 8211; 8212; 8230; 247]%N.

(** [allQuotes]: the quotation characters. *)
Definition allQuotes : str :=
  [8216; 8217; 8218; 8239; 8250; 8249; 171; 187; 8222; 8220; 8221; 12300;
   12301; 12302; 12303; 34; 39]%N.

(** [RegExp.prototype.test] for a pattern that is a literal string: the
    string occurs somewhere. *)
Fixpoint contains (pattern s : str) : bool :=
  bool_decide (pattern `prefix_of` s)
  || match s with
     | [] => false
     | _ :: s' => contains pattern s'
     end.

(** [s.includes(ch)] where [ch] is one character or [undefined];
    [undefined] is looked for as the string [undefined]. *)
Definition str_includes (s : str) (ch : option char) : bool :=
  match ch with
  | Some ch => bool_decide (ch ∈ s)
  | None => contains (lit "undefined") s
  end.

(** A line terminator, which the dot of a regular expression does not
    match. *)
Definition is_line_terminator (ch : char) : bool :=
  ((ch =? 10) || (ch =? 13) || (ch =? 8232) || (ch =? 8233))%N.

(** [.+?] followed by the literal [close], tried at the start of [s]: the
    length of the shortest match. *)
Fixpoint dots_then (close s : str) : option nat :=
  match s with
  | [] => None
  | ch :: s' =>
      if is_line_terminator ch then None
      else if bool_decide (close `prefix_of` s') then Some (1 + length close)
      else S <$> dots_then close s'
  end.

(** [new RegExp(open + '.+?' + close)] for [open] and [close] with their
    special characters escaped, so that each stands for itself. *)
Definition delimited (open close : str) : regexp := λ s,
  if bool_decide (open `prefix_of` s)
  then (λ n, length open + n) <$> dots_then close (drop (length open) s)
  else None.

(** Modelled from the spec: the patterns [getZknTagRE()], [getCodeRE()]
    and [getFootnoteRefRE()].  Their file, regular-expressions.js, is
    missing; the design document says only that they recognize tags,
    inline code and footnote references. *)
Record patterns := Patterns {
  zknTagRE : regexp;
  codeRE : regexp;
  footnoteRefRE : regexp
}.

(** What the mode reads of its configuration,
    [config.zettlr.zettelkasten.linkStart] and [linkEnd], with the
    patterns the module has loaded. *)
Record config := Config {
  linkStart : str;
  linkEnd : str;
  loaded : patterns
}.

(** [zknLinkRE] of [token]. *)
Definition zknLinkRE (cfg : config) : regexp :=
  delimited (linkStart cfg) (linkEnd cfg).

(** What every regular expression does, and what the three missing ones
    are taken to do: a match lies in the text, and is not empty. *)
Definition regexp_ok (re : regexp) : Prop :=
  ∀ s n, re s = Some n → 0 < n ≤ length s.

Definition patterns_ok (cfg : config) : Prop :=
  regexp_ok (zknTagRE (loaded cfg))
  ∧ regexp_ok (codeRE (loaded cfg))
  ∧ regexp_ok (footnoteRefRE (loaded cfg)).

(** *** [token] *)

(** Modelled from the spec: the kinds of span (section 3).  The mode
    itself tells its tokens apart only by where [token] returns. *)
Inductive kind := Link | Tag | FootnoteRef | Code | Number | URL | Word.

#[global] Instance kind_eq_dec : EqDecision kind.
Proof. solve_decision. Defined.

(** One call of [token]: the value returned ([null] is [None]), the place
    of the [return] ([None]: the one after a separator), and the stream
    and the cache as the call leaves them. *)
Record outcome := Outcome {
  returned : option str;
  site : option kind;
  after : StringStream;
  cacheAfter : Cache
}.

(** The tests [/\d+/.test(word)] and [/https?|www\./.test(word)].  The
    first finds a digit anywhere in the word; the second finds [http]
    (the [s] is optional) or [www.] anywhere in it. *)
Definition is_digit (ch : char) : bool := ((48 <=? ch) && (ch <=? 57))%N.

Definition has_number (word : str) : bool := existsb is_digit word.

Definition has_link (word : str) : bool :=
  contains (lit "http") word || contains (lit "www.") word.

(** The four [stream.match] tests at the head of [token], in their order:
    the first that matches returns.  The link pattern is tried only if
    [linkStart] is not empty. *)
Definition special (cfg : config) (stream : StringStream) : option (kind * StringStream) :=
  match
    (if bool_decide (linkStart cfg ≠ [])
     then stream_match (zknLinkRE cfg) stream else None)
  with
  | Some stream => Some (Link, stream)
  | None =>
  match stream_match (zknTagRE (loaded cfg)) stream with
  | Some stream => Some (Tag, stream)
  | None =>
  match stream_match (codeRE (loaded cfg)) stream with
  | Some stream => Some (Code, stream)
  | None =>
  match stream_match (footnoteRefRE (loaded cfg)) stream with
  | Some stream => Some (FootnoteRef, stream)
  | None => None
  end end end end.

(** A character that is no separator, and one that is no space. *)
Definition word_char (ch : char) : bool := negb (str_includes delim (Some ch)).
Definition non_space (ch : char) : bool := negb (ch =? 32)%N.

(** The two [substr] calls of [token]: a quotation character is taken
    from the start of the word, then one from the end of what is left. *)
Definition stripQuotes (word : str) : str :=
  let word := if str_includes allQuotes (head word) then drop 1 word else word in
  if str_includes allQuotes (last word) then take (length word - 1) word else word.

(** [token(stream)] of the spellchecker overlay. *)
Definition token (cfg : config) (d : dictionary) (stream : StringStream) (c : Cache)
  : outcome :=
  let ch := peek stream in
  match special cfg stream with
  | Some (k, stream) => Outcome None (Some k) stream c
  | None =>
      if str_includes delim ch then Outcome None None (next stream) c
      else
        let word := takeWhile word_char (remaining stream) in
        let stream := advance (length word) stream in
        if has_number word then Outcome None (Some Number) stream c
        else if has_link word then
          let link := takeWhile non_space (remaining stream) in
          Outcome None (Some URL) (advance (length link) stream) c
        else
          let '(correct, c) := check d (stripQuotes word) c in
          Outcome (if correct then None else Some (lit "spell-error"))
                  (Some Word) stream c
  end.

(** The word that [token] collects at the position, the stream past it,
    and the stream past the rest of a link. *)
Definition word_at (stream : StringStream) : str :=
  takeWhile word_char (remaining stream).

Definition past_word (stream : StringStream) : StringStream :=
  advance (length (word_at stream)) stream.

Definition past_link (stream : StringStream) : StringStream :=
  advance (length (takeWhile non_space (remaining (past_word stream))))
    (past_word stream).

(** *** Spans and the annotation pipeline *)

(** Modelled from the spec: the Span of the data model (section 3).  The
    mode has no such record: a span stands for one token of the mode,
    [text] for what the token covers, and [correct] for what [check] said
    of a word ([None]: nothing was checked). *)
Record Span := mkSpan {
  spanKind : kind;
  text : str;
  startOffset : nat;
  endOffset : nat;
  correct : option bool
}.

(** The characters of the line between two offsets. *)
Definition substring (line : str) (from to : nat) : str :=
  take (to - from) (drop from line).

(** Modelled from the spec: the span of a token that started at [start].
    A separator gives no span (section 4.1, step 2); a word is correct
    unless [token] returned [spell-error]. *)
Definition spanOf (start : nat) (o : outcome) : option Span :=
  k ← site o;
  Some (mkSpan k
          (substring (content (after o)) start (pos (after o)))
          start (pos (after o))
          (match k with
           | Word => Some (bool_decide (returned o = None))
           | _ => None
           end)).

(** Modelled from the spec: the single pass over a line (section 4.1).
    CodeMirror calls the overlay's [token] at the start of the line and
    then where the last token ended, until the end of the line.  A token
    is not empty (see [patterns_ok]), so the length of the line is fuel
    enough. *)
Fixpoint scan (fuel : nat) (cfg : config) (d : dictionary)
    (stream : StringStream) (c : Cache) : list Span * Cache :=
  match fuel with
  | 0 => ([], c)
  | S fuel =>
      if eol stream then ([], c)
      else
        let o := token cfg d stream c in
        let '(ss, c) := scan fuel cfg d (after o) (cacheAfter o) in
        (option_list (spanOf (pos stream) o) ++ ss, c)
  end.

(** Modelled from the spec: the Annotation Pipeline on one line (section
    4.3): the spans of the line, every Word span resolved through the
    cache. *)
Definition annotate (cfg : config) (d : dictionary) (line : str) (c : Cache)
  : list Span * Cache :=
  scan (length line) cfg d (mkStream line 0) c.

(** Modelled from the spec: the Tokenizer's span sequence for a line
    (section 4.1). *)
Definition tokenize (cfg : config) (d : dictionary) (line : str) (c : Cache)
  : list Span :=
  (annotate cfg d line c).1.

(** The offset [i] lies in the span. *)
Definition covers (s : Span) (i : nat) : Prop :=
  startOffset s ≤ i < endOffset s.

(** The two sides of the coverage property as the design document words
    it: the texts of the spans, concatenated, and the characters of the
    line that are no delimiters. *)
Definition spans_text (ss : list Span) : str := concat (text <$> ss).

Definition non_delimiters (line : str) : str := List.filter word_char line.

(** Every span ends before the spans after it start. *)
Definition ordered (ss : list Span) : Prop :=
  StronglySorted (λ a b, endOffset a ≤ startOffset b) ss.

(** The kinds of the special spans of step 1, and the kinds of the spans
    that are runs of characters between separators. *)
Definition is_special (k : kind) : bool :=
  match k with
  | Link | Tag | Code | FootnoteRef => true
  | _ => false
  end.

Definition is_run (k : kind) : bool :=
  match k with
  | Word | Number => true
  | _ => false
  end.

(** The patterns that [token] tries, in the order in which it tries
    them; without a [linkStart] the link pattern is not tried. *)
Definition never : regexp := λ _, None.

Definition priority (cfg : config) : list (kind * regexp) :=
  [(Link, if bool_decide (linkStart cfg ≠ []) then zknLinkRE cfg else never);
   (Tag, zknTagRE (loaded cfg));
   (Code, codeRE (loaded cfg));
   (FootnoteRef, footnoteRefRE (loaded cfg))].

(** A span without its [correct] field. *)
Definition outline (s : Span) : kind * str * nat * nat :=
  (spanKind s, text s, startOffset s, endOffset s).

(** *** Example patterns

    The design document names the link delimiters of its example and
    nothing else of the patterns; these are the plainest that recognize
    its example. *)

(** Modelled from the spec: a tag pattern (the regular expression is
    missing): a [#], then at least one character that is no separator. *)
Definition hashtag : regexp := λ s,
  match s with
  | ch :: s' =>
      if (ch =? 35)%N then
        match takeWhile word_char s' with
        | [] => None
        | w => Some (S (length w))
        end
      else None
  | [] => None
  end.

(** Modelled from the spec: patterns for tags, for inline code between
    backticks and for footnote references between [[^] and []]. *)
Definition example_patterns : patterns :=
  {| zknTagRE := hashtag;
     codeRE := delimited (lit "`") (lit "`");
     footnoteRefRE := delimited (lit "[^") (lit "]") |}.

(** The configuration of the design document's example: link delimiters
    [[[] and []]]. *)
Definition wiki_config : config :=
  Config (lit "[[") (lit "]]") example_patterns.

(** The line of the design document's example. *)
Definition sample_line : str := lit "See [[note]] #idea here".

(** *** Line records *)

(** Modelled from the spec: the Line Record of section 3. *)
Record LineRecord := mkLine {
  lineIndex : nat;
  rawText : str;
  spans : list Span;
  dirty : bool
}.

(** Modelled from the spec: one run of the pipeline on a record; the
    span sequence is replaced and the record becomes Clean. *)
Definition scanRecord (cfg : config) (d : dictionary) (r : LineRecord) (c : Cache)
  : LineRecord * Cache :=
  let '(ss, c) := annotate cfg d (rawText r) c in
  (mkLine (lineIndex r) (rawText r) ss false, c).

(** *** Re-scan controller *)

(** Modelled from the spec: the controller's state.  [scanned] records
    the lines the pipeline was invoked on; nothing reads it. *)
Record Controller := mkController {
  records : list LineRecord;
  cache : Cache;
  scanned : list nat
}.

(** Modelled from the spec: [markDirty(lineIndex)] of section 6. *)
Definition markDirty (i : nat) (ctl : Controller) : Controller :=
  mkController
    ((λ r, if bool_decide (lineIndex r = i)
           then mkLine (lineIndex r) (rawText r) (spans r) true else r)
       <$> records ctl)
    (cache ctl) (scanned ctl).

(** The line [i] lies below every affected line. *)
Definition beyond (affected : list nat) (i : nat) : bool :=
  forallb (λ a, a <? i) affected.

(** The index [i] moved by the shift delta. *)
Definition shifted (shiftDelta : Z) (i : nat) : nat :=
  Z.to_nat (Z.of_nat i + shiftDelta).

(** Modelled from the spec: the reaction to a buffer change (section
    4.4).  An affected record becomes Dirty and takes the line's new
    text from [getBufferText]; with a shift, a record beyond the change
    moves to its new index and becomes Dirty.  The creation and
    destruction of records for inserted and deleted lines is not
    described operationally and is left out. *)
Definition onBufferChange (getBufferText : nat → str)
    (affected : list nat) (shiftDelta : Z) (ctl : Controller) : Controller :=
  mkController
    ((λ r,
        if bool_decide (lineIndex r ∈ affected) then
          mkLine (lineIndex r) (getBufferText (lineIndex r)) (spans r) true
        else if negb (shiftDelta =? 0)%Z && beyond affected (lineIndex r) then
          mkLine (shifted shiftDelta (lineIndex r)) (rawText r) (spans r) true
        else r)
       <$> records ctl)
    (cache ctl) (scanned ctl).

(** Modelled from the spec: [getSpans(lineIndex)] of section 6; a Dirty
    record is scanned first, a missing one gives the empty sequence. *)
Definition getSpans (cfg : config) (d : dictionary) (i : nat) (ctl : Controller)
  : list Span * Controller :=
  match list_find (λ r, lineIndex r = i) (records ctl) with
  | None => ([], ctl)
  | Some (k, r) =>
      if dirty r then
        let '(r', c) := scanRecord cfg d r (cache ctl) in
        (spans r',
         mkController (<[k := r']> (records ctl)) c (scanned ctl ++ [lineIndex r]))
      else (spans r, ctl)
  end.

(** Modelled from the spec: the scan-flush, the pipeline run on every
    Dirty record and on no other. *)
Fixpoint flushRecords (cfg : config) (d : dictionary) (rs : list LineRecord)
    (c : Cache) : list LineRecord * Cache * list nat :=
  match rs with
  | [] => ([], c, [])
  | r :: rs =>
      if dirty r then
        let '(r', c) := scanRecord cfg d r c in
        let '(rs', c, done) := flushRecords cfg d rs c in
        (r' :: rs', c, lineIndex r :: done)
      else
        let '(rs', c, done) := flushRecords cfg d rs c in
        (r :: rs', c, done)
  end.

(** Modelled from the spec: the scan-flush on the controller's state. *)
Definition flush (cfg : config) (d : dictionary) (ctl : Controller) : Controller :=
  let '(rs, c, done) := flushRecords cfg d (records ctl) (cache ctl) in
  mkController rs c (scanned ctl ++ done).

(** Modelled from the spec: initial load, one record per line and one
    scan of every line. *)
Definition load (cfg : config) (d : dictionary) (lines : list str) : Controller :=
  flush cfg d
    (mkController (imap (λ i l, mkLine i l [] true) lines) emptyCache []).

(** An in-place edit of line [i]: what [onBufferChange] does to a
    record when [i] is the one affected line and nothing shifts. *)
Definition touch (getBufferText : nat → str) (i : nat) (r : LineRecord)
  : LineRecord :=
  if bool_decide (lineIndex r = i)
  then mkLine (lineIndex r) (getBufferText (lineIndex r)) (spans r) true
  else r.

(** Modelled from the spec: [onDictionaryInvalidate], the listener's
    reaction to [invalidate-dict] on the controller's cache. *)
Definition onDictionaryInvalidate (ctl : Controller) : Controller :=
  mkController (records ctl)
    (onDictionaryProvider (lit "invalidate-dict") (cache ctl)) (scanned ctl).

End Spellcheck.


(** * Properties *)

(** ** Strings *)

Module JSFacts.
Import JS.

Lemma dropWhile_head {A} (p : A → bool) l x l' :
  dropWhile p l = x :: l' → p x = false.
Proof.
  induction l as [|y l IH]; simpl; [done|].
  destruct (p y) eqn:Hy; [done|].
  intros [= -> _]. done.
Qed.

Lemma takeWhile_dropWhile {A} (p : A → bool) l :
  takeWhile p l ++ dropWhile p l = l.
Proof.
  induction l as [|y l IH]; simpl; [done|].
  destruct (p y); simpl; [by rewrite IH | done].
Qed.

Lemma takeWhile_Forall {A} (p : A → bool) l :
  Forall (λ x, p x = true) (takeWhile p l).
Proof.
  induction l as [|y l IH]; simpl; [constructor|].
  destruct (p y) eqn:Hy; [by constructor | constructor].
Qed.

Lemma takeWhile_prefix {A} (p : A → bool) l :
  takeWhile p l = take (length (takeWhile p l)) l.
Proof.
  induction l as [|y l IH]; simpl; [done|].
  destruct (p y); simpl; [by rewrite <- IH | done].
Qed.

Lemma dropWhile_drop {A} (p : A → bool) l :
  dropWhile p l = drop (length (takeWhile p l)) l.
Proof.
  induction l as [|y l IH]; simpl; [done|].
  destruct (p y); simpl; [done | done].
Qed.

(** A trimmed string that is not empty ends in a character that is no
    whitespace, so it is not whitespace-only. *)
Lemma trim_not_whitespace_only s :
  trim s ≠ [] → ¬ whitespace_only (trim s).
Proof.
  unfold trim, trimEnd, whitespace_only. intros Hne Hall.
  destruct (dropWhile is_whitespace (rev (trimStart s))) as [|c l] eqn:Hd.
  { by apply Hne. }
  apply dropWhile_head in Hd as Hc.
  rewrite Forall_forall in Hall.
  assert (is_whitespace c = true) as Hc'.
  { apply Hall. simpl. rewrite elem_of_app, list_elem_of_singleton. by right. }
  congruence.
Qed.

Lemma whitespace_only_trim s :
  whitespace_only s → trim s = [].
Proof.
  unfold whitespace_only, trim, trimStart. intros Hall.
  assert (dropWhile is_whitespace s = []) as ->.
  { induction Hall as [|c l Hc _ IH]; simpl; [done|]. by rewrite Hc. }
  done.
Qed.

End JSFacts.

(** ** TokenList *)

Module TokenListFacts.
Import JS JSFacts TokenList.

Lemma includes_true arr x : includes arr x = true ↔ x ∈ arr.
Proof. unfold includes. by rewrite bool_decide_eq_true. Qed.

Lemma includes_false arr x : includes arr x = false ↔ x ∉ arr.
Proof. unfold includes. by rewrite bool_decide_eq_false. Qed.

Lemma map_token (arr : list str) : map (λ token, token) arr = arr.
Proof. apply map_id. Qed.

Example handleKey_on_comma :
  handleKey (lit "Comma") (Component [lit "md"] (lit " txt "))
  = Outcome (Some [lit "md"; lit "txt"]) [].
Proof. reflexivity. Qed.

Example handleKey_on_letter :
  handleKey (lit "KeyT") (Component [lit "md"] (lit "tx"))
  = Outcome None (lit "tx").
Proof. reflexivity. Qed.

Example handleKey_on_known_token :
  handleKey (lit "Enter") (Component [lit "md"; lit "txt"] (lit "md"))
  = Outcome None [].
Proof. reflexivity. Qed.

Example handleKey_on_blank_input :
  handleKey (lit "Enter") (Component [lit "md"] (lit "  "))
  = Outcome None (lit "  ").
Proof. reflexivity. Qed.

(** The three ways of emitting nothing. *)
Lemma handleKey_blank code c :
  trim (inputValue c) = [] → handleKey code c = Outcome None (inputValue c).
Proof. intros H. unfold handleKey. by rewrite bool_decide_eq_true_2. Qed.

Lemma handleKey_other_key code c :
  code ∉ keys → handleKey code c = Outcome None (inputValue c).
Proof.
  intros H. unfold handleKey. case_bool_decide; [done|].
  apply includes_false in H. by rewrite H.
Qed.

Lemma handleKey_present code c :
  trim (inputValue c) ∈ value c → emitted (handleKey code c) = None.
Proof.
  intros H. unfold handleKey. case_bool_decide; [done|].
  destruct (includes keys code); [|done].
  rewrite map_token. apply includes_true in H. by rewrite H.
Qed.

Lemma handleKey_append code c :
  trim (inputValue c) ≠ [] → trim (inputValue c) ∉ value c → code ∈ keys →
  handleKey code c = Outcome (Some (value c ++ [trim (inputValue c)])) [].
Proof.
  intros Hne Hnew Hkey. unfold handleKey.
  rewrite bool_decide_eq_false_2 by done.
  apply includes_true in Hkey. rewrite Hkey.
  rewrite map_token. apply includes_false in Hnew. by rewrite Hnew.
Qed.

(** Whatever is emitted is the old list and one new token at its end. *)
Lemma handleKey_emitted code c l :
  emitted (handleKey code c) = Some l →
  l = value c ++ [trim (inputValue c)]
  ∧ trim (inputValue c) ≠ [] ∧ (trim (inputValue c) ∉ value c) ∧ code ∈ keys.
Proof.
  unfold handleKey. case_bool_decide as Hb; [done|].
  destruct (includes keys code) eqn:Hk; [|done].
  rewrite map_token.
  destruct (includes (value c) (trim (inputValue c))) eqn:Hi; simpl; [done|].
  intros [= <-]. apply includes_true in Hk. apply includes_false in Hi. done.
Qed.

(** C10, as stated, fails: a list that already holds a duplicate is emitted
    with its duplicate. *)
Lemma handleKey_keeps_duplicate :
  emitted (handleKey (lit "Enter") (Component [lit "a"; lit "a"] (lit "b")))
    = Some [lit "a"; lit "a"; lit "b"]
  ∧ ¬ NoDup [lit "a"; lit "a"; lit "b"].
Proof.
  split; [reflexivity|].
  intros H. apply NoDup_cons in H as [H _]. apply H. by left.
Qed.

(** C10, amended: [handleKey] never adds a duplicate or a whitespace-only
    token.  If the trimmed input is empty or already in the list, or the
    key is none of Space, Enter, Comma and Tab, nothing is emitted;
    otherwise the emitted list is the old list with the trimmed input
    appended.  The appended token is not whitespace-only and not in the old
    list, so an emitted list has a duplicate or a whitespace-only token
    only if the old list had one. *)
Theorem handleKey_adds_no_duplicate code c :
  (trim (inputValue c) = [] ∨ trim (inputValue c) ∈ value c ∨ code ∉ keys →
     emitted (handleKey code c) = None)
  ∧ (trim (inputValue c) ≠ [] → trim (inputValue c) ∉ value c → code ∈ keys →
     emitted (handleKey code c) = Some (value c ++ [trim (inputValue c)]))
  ∧ (∀ l, emitted (handleKey code c) = Some l →
       (NoDup (value c) → NoDup l)
       ∧ (Forall (λ t, ¬ whitespace_only t) (value c) →
          Forall (λ t, ¬ whitespace_only t) l)).
Proof.
  split; [|split].
  - intros [H|[H|H]].
    + by rewrite handleKey_blank.
    + by apply handleKey_present.
    + by rewrite handleKey_other_key.
  - intros. by rewrite handleKey_append.
  - intros l Hl. apply handleKey_emitted in Hl as (-> & Hne & Hnew & _). split.
    + intros Hnd. apply NoDup_app. split; [done|]. split.
      * intros x Hx Hx'. apply list_elem_of_singleton in Hx' as ->. done.
      * apply NoDup_singleton.
    + intros Hall. apply Forall_app. split; [done|].
      apply Forall_singleton. by apply trim_not_whitespace_only.
Qed.

Lemma handleKey_adds_no_duplicate_witness :
  emitted (handleKey (lit "Comma") (Component [lit "md"] (lit " txt ")))
    = Some [lit "md"; lit "txt"]
  ∧ NoDup [lit "md"; lit "txt"].
Proof.
  pose proof (handleKey_adds_no_duplicate (lit "Comma")
                (Component [lit "md"] (lit " txt "))) as (_ & Happ & Hinv).
  assert (emitted (handleKey (lit "Comma") (Component [lit "md"] (lit " txt ")))
          = Some [lit "md"; lit "txt"]) as Hem.
  { apply Happ; vm_compute.
    - discriminate.
    - intros H. apply list_elem_of_singleton in H. discriminate.
    - right. right. left. }
  split; [exact Hem|].
  apply (Hinv _ Hem). simpl. apply NoDup_singleton.
Defined.

End TokenListFacts.

(** ** Values, heaps and JSON *)

Module HeapFacts.
Import JS Heap.

(** Induction on trees and texts, with the hypothesis for every element. *)
Lemma tree_ind' (P : tree → Prop) :
  P TUndefined → P TNull → (∀ b, P (TBool b)) → (∀ n, P (TNum n)) →
  (∀ s, P (TStr s)) →
  (∀ ts, Forall P ts → P (TArr ts)) →
  (∀ ps, Forall (λ p, P p.2) ps → P (TObj ps)) →
  ∀ t, P t.
Proof.
  intros Hu Hn Hb Hnum Hs Harr Hobj.
  fix IH 1. intros [| |b|n|s|ts|ps].
  - exact Hu.
  - exact Hn.
  - apply Hb.
  - apply Hnum.
  - apply Hs.
  - apply Harr. induction ts as [|t ts IHts]; constructor; [apply IH | exact IHts].
  - apply Hobj. induction ps as [|p ps IHps]; constructor; [apply IH | exact IHps].
Qed.

Lemma json_ind' (P : json → Prop) :
  P JNull → (∀ b, P (JBool b)) → (∀ z, P (JNum z)) → (∀ s, P (JStr s)) →
  (∀ js, Forall P js → P (JArr js)) →
  (∀ ps, Forall (λ p, P p.2) ps → P (JObj ps)) →
  ∀ j, P j.
Proof.
  intros Hn Hb Hnum Hs Harr Hobj.
  fix IH 1. intros [|b|z|s|js|ps].
  - exact Hn.
  - apply Hb.
  - apply Hnum.
  - apply Hs.
  - apply Harr. induction js as [|j js IHjs]; constructor; [apply IH | exact IHjs].
  - apply Hobj. induction ps as [|p ps IHps]; constructor; [apply IH | exact IHps].
Qed.

Lemma tsize_elem t ts : t ∈ ts → tsize t < tsize (TArr ts).
Proof.
  induction 1 as [t ts|t t' ts _ IH]; simpl in *; lia.
Qed.

Lemma tsize_prop p ps : p ∈ ps → tsize p.2 < tsize (TObj ps).
Proof.
  induction 1 as [p ps|p p' ps _ IH]; simpl in *; lia.
Qed.

(** A value stands for one tree only. *)
Lemma Forall2_functional {A B} (R : A → B → Prop) es ts ts2 :
  Forall (λ t, ∀ e t2, R e t → R e t2 → t = t2) ts →
  Forall2 R es ts → Forall2 R es ts2 → ts = ts2.
Proof.
  intros IH Ha. revert ts2 IH.
  induction Ha as [|e t es ts Het _ IHa]; intros ts2 IH Hb;
    inversion Hb; subst; [done|].
  apply Forall_cons in IH as [IHt IHts]. f_equal; eauto.
Qed.

Lemma denotes_functional h t1 :
  ∀ v t2, denotes h v t1 → denotes h v t2 → t1 = t2.
Proof.
  induction t1 as [| |b|n|s|ts IH|ps IH] using tree_ind';
    intros v t2 H1 H2; inversion H1; subst; inversion H2; subst;
    try done; simplify_eq; f_equal.
  - eapply Forall2_functional; [|done..]. done.
  - eapply Forall2_functional; [|done..].
    eapply Forall_impl; [exact IH|]. simpl.
    intros [k t] IHt [k' e] [k2 t2] [Hk He] [Hk2 He2]; simpl in *.
    f_equal; [congruence|eauto].
Qed.

(** Reading does not depend on the objects it does not follow. *)
Lemma Forall2_Forall_impl {A B} (R R' : A → B → Prop) es ts :
  Forall (λ t, ∀ e, R e t → R' e t) ts →
  Forall2 R es ts → Forall2 R' es ts.
Proof.
  intros IH Ha. induction Ha as [|e t es ts Het _ IHa]; constructor;
    apply Forall_cons in IH as [IHt IHts]; eauto.
Qed.

Lemma denotes_agree h h2 t :
  (∀ l o, h !! l = Some o → h2 !! l = Some o) →
  ∀ v, denotes h v t → denotes h2 v t.
Proof.
  intros Hagree.
  induction t as [| |b|n|s|ts IH|ps IH] using tree_ind';
    intros v Hv; inversion Hv; subst; try by constructor.
  - eapply den_arr; [eauto|]. by eapply Forall2_Forall_impl.
  - eapply den_obj; [eauto|]. eapply Forall2_Forall_impl; [|done].
    eapply Forall_impl; [exact IH|]. simpl. intros q IHq e [Hk He]. eauto.
Qed.

Lemma denotes_extend h new v t : denotes h v t → denotes (h ++ new) v t.
Proof.
  apply denotes_agree. intros l o Hl. by apply lookup_app_l_Some.
Qed.

(** A stack of distinct objects of the heap is no longer than the heap. *)
Lemma stack_bounded (stack : list nat) n :
  NoDup stack → (∀ a, a ∈ stack → a < n) → length stack ≤ n.
Proof.
  intros Hnd Hlt. trans (length (seq 0 n)); [|by rewrite length_seq].
  apply submseteq_length, NoDup_submseteq; [done|].
  intros a Ha. apply elem_of_seq. specialize (Hlt a Ha). lia.
Qed.

Lemma omap_props (ps : list (str * tree)) :
  omap (λ q : str * option json, pair q.1 <$> q.2)
       ((λ p, (p.1, to_json p.2)) <$> ps)
  = omap (λ p, pair p.1 <$> to_json p.2) ps.
Proof.
  induction ps as [|p ps IH]; [done|].
  rewrite fmap_cons. cbn [omap list_omap fst snd]. rewrite IH.
  by destruct (to_json p.2).
Qed.

(** [serialize] writes the tree a value stands for.  On the stack are the
    objects around the value, each standing for a larger tree; so the value
    is none of them, and the fuel lasts. *)
Lemma serialize_denotes h t :
  ∀ v fuel stack,
    denotes h v t →
    NoDup stack →
    (∀ a, a ∈ stack → ∃ ta, denotes h (VRef a) ta ∧ tsize t < tsize ta) →
    length h < fuel + length stack →
    serialize fuel stack h v = Some (to_json t).
Proof.
  induction t as [| |b|n|s|ts IH|ps IH] using tree_ind';
    intros v fuel stack Hv Hnd Hstack Hfuel;
    inversion Hv as [| | | | |l elems ts' Hl Helems|l props ps' Hl Hprops];
    subst; try (by destruct fuel); try (by destruct fuel, n).
  - (* an array *)
    assert (l ∉ stack) as Hfresh.
    { intros (ta & Hta & Hsz)%Hstack.
      rewrite (denotes_functional _ _ _ _ Hta Hv) in Hsz. lia. }
    assert (length (l :: stack) ≤ length h) as Hlen.
    { apply stack_bounded; [by apply NoDup_cons|].
      intros a [->|Ha]%elem_of_cons.
      - by eapply lookup_lt_Some.
      - destruct (Hstack a Ha) as (ta & Hta & _). inversion Hta; subst;
          by eapply lookup_lt_Some. }
    simpl in Hlen. destruct fuel as [|fuel]; [lia|].
    simpl. rewrite bool_decide_eq_false_2 by done.
    rewrite Hl.
    assert (mapM (λ e, default JNull <$> serialize fuel (l :: stack) h e) elems
            = Some ((λ t, default JNull (to_json t)) <$> ts)) as ->; [|done].
    apply mapM_Some, Forall2_fmap_r.
    eapply Forall2_Forall_impl; [|eassumption].
    rewrite Forall_forall in IH. apply Forall_forall. intros t Ht e He.
    rewrite (IH t Ht e fuel (l :: stack)); [done|done|by apply NoDup_cons| |simpl; lia].
    intros a [->|Ha]%elem_of_cons.
    + exists (TArr ts). split; [done|]. by apply tsize_elem.
    + destruct (Hstack a Ha) as (ta & Hta & Hsz). exists ta. split; [done|].
      apply tsize_elem in Ht. lia.
  - (* a record *)
    assert (l ∉ stack) as Hfresh.
    { intros (ta & Hta & Hsz)%Hstack.
      rewrite (denotes_functional _ _ _ _ Hta Hv) in Hsz. lia. }
    assert (length (l :: stack) ≤ length h) as Hlen.
    { apply stack_bounded; [by apply NoDup_cons|].
      intros a [->|Ha]%elem_of_cons.
      - by eapply lookup_lt_Some.
      - destruct (Hstack a Ha) as (ta & Hta & _). inversion Hta; subst;
          by eapply lookup_lt_Some. }
    simpl in Hlen. destruct fuel as [|fuel]; [lia|].
    simpl. rewrite bool_decide_eq_false_2 by done.
    rewrite Hl.
    assert (mapM (λ p, pair p.1 <$> serialize fuel (l :: stack) h p.2) props
            = Some ((λ p, (p.1, to_json p.2)) <$> ps)) as ->.
    2:{ simpl. by rewrite omap_props. }
    apply mapM_Some, Forall2_fmap_r.
    eapply Forall2_Forall_impl; [|eassumption].
    rewrite Forall_forall in IH. apply Forall_forall. intros q Hq e [Hk He].
    rewrite (IH q Hq e.2 fuel (l :: stack)); [by rewrite Hk|done|by apply NoDup_cons| |simpl; lia].
    intros a [->|Ha]%elem_of_cons.
    + exists (TObj ps). split; [done|]. by apply tsize_prop.
    + destruct (Hstack a Ha) as (ta & Hta & Hsz). exists ta. split; [done|].
      apply tsize_prop in Hq. lia.
Qed.

Lemma stringify_denotes h v t :
  denotes h v t → stringify h v = Some (to_json t).
Proof.
  intros Hv. apply serialize_denotes; [done|constructor| |simpl; lia].
  intros a Ha. by apply elem_of_nil in Ha.
Qed.

Lemma stringify_array_denotes h elems ts :
  Forall2 (denotes h) elems ts →
  stringify_array h elems
  = Some (JArr ((λ t, default JNull (to_json t)) <$> ts)).
Proof.
  intros Hall. unfold stringify_array.
  assert (mapM (λ e, default JNull <$> stringify h e) elems
          = Some ((λ t, default JNull (to_json t)) <$> ts)) as ->; [|done].
  apply mapM_Some, Forall2_fmap_r.
  eapply Forall2_impl; [exact Hall|]. intros e t He.
  by rewrite (stringify_denotes _ _ _ He).
Qed.


(** *** [JSON.parse] allocates, and only allocates *)

Lemma val_fresh_le n n' v : n ≤ n' → val_fresh n' v → val_fresh n v.
Proof. destruct v; simpl; lia || done. Qed.

Lemma obj_fresh_le n n' o : n ≤ n' → obj_fresh n' o → obj_fresh n o.
Proof.
  intros Hle. destruct o; simpl; intros Hall;
    (eapply Forall_impl; [exact Hall|]); intros ?; by apply val_fresh_le.
Qed.

Lemma thread_allocates {A B} (F : nat → B → Prop) (R : heap → B → A → Prop)
    (f : A → heap → heap * B) xs :
  (∀ n n' y, n ≤ n' → F n' y → F n y) →
  (∀ h new y x, R h y x → R (h ++ new) y x) →
  Forall (allocates F R f) xs →
  ∀ h, ∃ new,
    (thread f xs h).1 = h ++ new
    ∧ Forall (obj_fresh (length h)) new
    ∧ Forall (F (length h)) (thread f xs h).2
    ∧ Forall2 (R (thread f xs h).1) (thread f xs h).2 xs.
Proof.
  intros HF HR Hall. induction Hall as [|x xs Hx _ IH]; intros h.
  - exists []. simpl. rewrite app_nil_r. repeat split; constructor.
  - destruct (Hx h) as (new1 & Hh1 & Hnew1 & Hy & HRy).
    simpl. destruct (f x h) as [h1 y] eqn:Hf. simpl in *. subst h1.
    destruct (IH (h ++ new1)) as (new2 & Hh2 & Hnew2 & Hys & HRys).
    destruct (thread f xs (h ++ new1)) as [h2 ys] eqn:Ht. simpl in *. subst h2.
    exists (new1 ++ new2). rewrite length_app in *.
    split; [by rewrite app_assoc|]. split; [|split].
    + apply Forall_app. split; [done|].
      eapply Forall_impl; [exact Hnew2|]. intros o. apply obj_fresh_le. lia.
    + constructor; [done|].
      eapply Forall_impl; [exact Hys|]. intros y'. apply HF. lia.
    + constructor; [by apply HR | done].
Qed.

Lemma parse_allocates j :
  allocates val_fresh (λ h v j, denotes h v (of_json j)) parse j.
Proof.
  induction j as [|b|z|s|js IH|ps IH] using json_ind'; intros h;
    try (exists []; simpl; rewrite app_nil_r; repeat split; constructor).
  - destruct (thread_allocates val_fresh (λ h v j, denotes h v (of_json j))
                parse js val_fresh_le) with (h := h)
      as (new & Hh' & Hnew & Hvs & Hden); [|done|].
    { intros. by apply denotes_extend. }
    simpl. destruct (thread parse js h) as [h' vs]. simpl in *. subst h'.
    exists (new ++ [OArr vs]). split; [by rewrite app_assoc|]. split; [|split].
    + apply Forall_app. split; [done|]. by apply Forall_singleton.
    + rewrite length_app. lia.
    + eapply den_arr.
      * by apply list_lookup_middle.
      * apply Forall2_fmap_r. eapply Forall2_impl; [exact Hden|].
        intros v j. apply denotes_extend.
  - destruct (thread_allocates (λ n (q : str * val), val_fresh n q.2)
                (λ h (q : str * val) (p : str * json),
                   q.1 = p.1 ∧ denotes h q.2 (of_json p.2))
                (λ p h, let '(h, v) := parse p.2 h in (h, (p.1, v))) ps)
      with (h := h) as (new & Hh' & Hnew & Hvs & Hden).
    { intros n n' q. apply val_fresh_le. }
    { intros h0 new q p [Hk Hq]. split; [done|]. by apply denotes_extend. }
    { eapply Forall_impl; [exact IH|]. intros p Hp h0.
      destruct (Hp h0) as (new & H1 & H2 & H3 & H4).
      exists new. destruct (parse p.2 h0) as [h1 v]. done. }
    simpl.
    destruct (thread (λ p h, let '(h, v) := parse p.2 h in (h, (p.1, v))) ps h)
      as [h' vs]. simpl in *. subst h'.
    exists (new ++ [OObj vs]). split; [by rewrite app_assoc|]. split; [|split].
    + apply Forall_app. split; [done|]. by apply Forall_singleton.
    + rewrite length_app. lia.
    + eapply den_obj.
      * by apply list_lookup_middle.
      * apply Forall2_fmap_r. eapply Forall2_impl; [exact Hden|].
        intros q p [Hk Hq]. split; [done|]. by apply denotes_extend.
Qed.

(** From a value that refers to new objects only, where new objects refer
    to new objects only, only new objects are reached. *)
Lemma reaches_fresh h n v l :
  (∀ l o, h !! l = Some o → n ≤ l → obj_fresh n o) →
  reaches h v l → val_fresh n v → n ≤ l.
Proof.
  intros Hheap. induction 1 as [l|l elems e l' Hl He _ IH|l props p l' Hl Hp _ IH];
    intros Hv; simpl in Hv; [done| |].
  - apply IH. specialize (Hheap l _ Hl Hv). simpl in Hheap.
    rewrite Forall_forall in Hheap. by apply Hheap.
  - apply IH. specialize (Hheap l _ Hl Hv). simpl in Hheap.
    rewrite Forall_forall in Hheap. by apply (Hheap p).
Qed.

(** Plain JSON data reads the same after the round trip. *)
Lemma to_json_is_Some t : is_json t = true → is_Some (to_json t).
Proof. destruct t as [| | |[]| | |]; simpl; by eauto. Qed.

Lemma json_image_id t : is_json t = true → json_image t = t.
Proof.
  unfold json_image.
  induction t as [| |b|n|s|ts IH|ps IH] using tree_ind'; simpl; try done.
  - by destruct n.
  - intros Hall. f_equal.
    induction IH as [|t ts IHt _ IHts]; [done|].
    simpl in Hall. apply andb_true_iff in Hall as [Ht Hts].
    rewrite !fmap_cons. f_equal; [by apply IHt | by apply IHts].
  - intros Hall. f_equal.
    induction IH as [|[k t] ps IHt _ IHps]; [done|].
    simpl in Hall. apply andb_true_iff in Hall as [Ht Hps].
    simpl in IHt. specialize (IHt Ht).
    destruct (to_json_is_Some t Ht) as [j Hj].
    cbn [omap list_omap fst snd]. rewrite Hj in *. simpl in IHt.
    cbn [fmap option_fmap option_map]. rewrite fmap_cons. simpl.
    rewrite IHt. f_equal. by apply IHps.
Qed.

End HeapFacts.

(** ** RecentDocsProvider *)

Module RecentDocsFacts.
Import JS Heap HeapFacts RecentDocs.

Section Provider.
Context {Doc : Type} `{EqDecision Doc}.
Variable path : Doc → str.

Lemma splice_one (i : nat) (arr : list Doc) :
  i < length arr → splice (Z.of_nat i) 1 arr = delete i arr.
Proof.
  intros Hi. unfold splice.
  destruct (Z.ltb_spec (Z.of_nat i) 0) as [?|_]; [lia|].
  rewrite Z.min_l by lia. rewrite Z.max_l by lia. rewrite Z.min_l by lia.
  rewrite Nat2Z.id. change (Z.to_nat 1) with 1.
  rewrite Nat.add_1_r. by rewrite delete_take_drop.
Qed.

(** The index of the element [find] returns is the index [find] stopped
    at. *)
Lemma indexOf_found (p : Doc → Prop) `{∀ e, Decision (p e)} arr i found :
  list_find p arr = Some (i, found) → indexOf arr found = Z.of_nat i.
Proof.
  intros (Hi & Hp & Hbefore)%list_find_Some. unfold indexOf.
  assert (list_find (λ e, e = found) arr = Some (i, found)) as ->; [|done].
  apply list_find_Some. split; [done|]. split; [done|].
  intros j y Hj Hlt ->. by apply (Hbefore j found).
Qed.

Lemma add_docs_absent doc l :
  path doc ∉ paths path l → add_docs path doc l = take 100 (doc :: l).
Proof.
  intros Hnot. unfold add_docs, find.
  assert (list_find (λ e, path e = path doc) l = None) as ->; [|done].
  apply list_find_None, Forall_forall. intros e He Hp. apply Hnot.
  unfold paths. rewrite <- Hp. by apply list_elem_of_fmap_2.
Qed.

Lemma add_docs_present doc l i found :
  list_find (λ e, path e = path doc) l = Some (i, found) →
  add_docs path doc l = take 100 (doc :: delete i l).
Proof.
  intros Hfind. unfold add_docs, find. rewrite Hfind. simpl.
  rewrite (indexOf_found _ _ _ _ Hfind).
  apply list_find_Some in Hfind as (Hi & _ & _).
  apply lookup_lt_Some in Hi. by rewrite splice_one.
Qed.

Lemma filter_other_paths doc l :
  path doc ∉ paths path l → filter (λ e, path e ≠ path doc) l = l.
Proof.
  induction l as [|a l IH]; intros Hnot; [done|].
  apply not_elem_of_cons in Hnot as [Ha Hl].
  rewrite filter_cons_True by done. by rewrite IH.
Qed.

(** In a list without two equal paths, deleting the entry with a path
    deletes every entry with that path. *)
Lemma delete_is_filter doc l i found :
  NoDup (paths path l) → l !! i = Some found → path found = path doc →
  delete i l = filter (λ e, path e ≠ path doc) l.
Proof.
  revert i. induction l as [|a l IH]; intros i Hnd Hi Hp; [done|].
  apply NoDup_cons in Hnd as [Ha Hnd].
  destruct i as [|i]; simpl in *.
  - injection Hi as ->. rewrite filter_cons_False by naive_solver.
    rewrite filter_other_paths; [done|]. by rewrite <- Hp.
  - assert (path a ≠ path doc) as Hne.
    { intros Heq. apply Ha. rewrite Heq, <- Hp.
      apply list_elem_of_fmap_2. by eapply list_elem_of_lookup_2. }
    rewrite filter_cons_True by done. f_equal. by eapply IH.
Qed.

(** With no two equal paths in the list, [add] puts the document in front
    of the entries with another path and keeps the first hundred. *)
Lemma add_docs_filter doc l :
  NoDup (paths path l) →
  add_docs path doc l = take 100 (doc :: filter (λ e, path e ≠ path doc) l).
Proof.
  intros Hnd.
  destruct (list_find (λ e, path e = path doc) l) as [[i found]|] eqn:Hfind.
  - rewrite (add_docs_present _ _ _ _ Hfind).
    apply list_find_Some in Hfind as (Hi & Hp & _).
    by rewrite (delete_is_filter doc l i found).
  - apply list_find_None in Hfind.
    assert (path doc ∉ paths path l) as Hnot.
    { intros (e & He & Hin)%list_elem_of_fmap.
      rewrite Forall_forall in Hfind. by apply (Hfind e). }
    rewrite add_docs_absent by done. by rewrite filter_other_paths.
Qed.

Lemma paths_filter_NoDup doc l :
  NoDup (paths path l) →
  NoDup (paths path (doc :: filter (λ e, path e ≠ path doc) l)).
Proof.
  intros Hnd. unfold paths. rewrite fmap_cons. apply NoDup_cons. split.
  - intros (e & He & Hin)%list_elem_of_fmap.
    apply list_elem_of_filter in Hin as [Hne _]. congruence.
  - apply (sublist_NoDup _ (paths path l)); [exact Hnd|].
    apply fmap_sublist, sublist_filter.
Qed.

Lemma add_docs_inv doc l :
  recent_inv path l → recent_inv path (add_docs path doc l).
Proof.
  intros [_ Hnd]. rewrite add_docs_filter by done. split.
  - rewrite length_take. lia.
  - eapply sublist_NoDup; [by apply (paths_filter_NoDup doc)|].
    apply (fmap_sublist path), sublist_take.
Qed.

Lemma perform_inv p c :
  recent_inv path (recentDocs p) → recent_inv path (recentDocs (perform path p c)).
Proof.
  intros Hinv. destruct c as [platform doc|platform]; simpl.
  - by apply add_docs_inv.
  - split; [simpl; lia | constructor].
Qed.

Lemma run_inv calls : recent_inv path (recentDocs (run path calls)).
Proof.
  unfold run.
  assert (recent_inv path (recentDocs (@init Doc))) as Hinit.
  { split; [simpl; lia | constructor]. }
  revert Hinit. generalize (@init Doc).
  induction calls as [|c calls IH]; intros p Hp; [done|].
  simpl. by apply IH, perform_inv.
Qed.

(** C8: in every state of the provider (whatever calls of [add] and
    [clear] came before) and for every document, after [add(doc)] the list
    has at most 100 entries, no two entries with the same path, and [doc]
    as its first entry; if the path of [doc] was in the list already, the
    list is [doc] followed by the other entries in their old order, and is
    as long as before. *)
Theorem add_keeps_list_bounded_and_unique
    (calls : list (@call Doc)) (platform : str) (doc : Doc) :
  let before := recentDocs (run path calls) in
  let docs := recentDocs (add path platform doc (run path calls)) in
  length docs ≤ 100
  ∧ NoDup (paths path docs)
  ∧ head docs = Some doc
  ∧ (path doc ∈ paths path before →
       docs = doc :: filter (λ e, path e ≠ path doc) before
       ∧ length docs = length before).
Proof.
  intros before docs. subst docs.
  pose proof (run_inv calls) as Hinv. fold before in Hinv.
  destruct (add_docs_inv doc _ Hinv) as [Hlen Hnd].
  destruct Hinv as [Hlen0 Hnd0]. unfold add. cbn [recentDocs]. fold before.
  split; [done|]. split; [done|]. split.
  { by rewrite add_docs_filter. }
  intros (e & He & Hin)%list_elem_of_fmap.
  assert (length (filter (λ e, path e ≠ path doc) before) < length before)
    as Hlt.
  { apply (length_filter_lt _ _ e); [done|]. naive_solver. }
  rewrite add_docs_filter by done.
  rewrite take_ge by (simpl; lia). split; [done|].
  simpl. f_equal.
  destruct (list_find (λ e, path e = path doc) before)
    as [[i found]|] eqn:Hfind.
  - apply list_find_Some in Hfind as (Hi & Hp & _).
    rewrite <- (delete_is_filter doc _ i found) by done.
    rewrite length_delete by eauto.
    apply lookup_lt_Some in Hi. lia.
  - apply list_find_None in Hfind. rewrite Forall_forall in Hfind.
    by destruct (Hfind e Hin).
Qed.

End Provider.

Example add_on_linux :
  add id (lit "linux") (lit "/a.md") init
  = Provider [lit "/a.md"] [EmitUpdate].
Proof. reflexivity. Qed.

Example add_on_macos :
  add id (lit "darwin") (lit "/a.md") init
  = Provider [lit "/a.md"] [AddRecentDocument (lit "/a.md"); EmitUpdate].
Proof. reflexivity. Qed.

Example add_to_full_list :
  length (recentDocs (add id (lit "linux") (lit "/new.md")
                        (Provider (replicate 100 (lit "/old.md")) [])))
  = 100.
Proof. reflexivity. Qed.

(** Two documents with the paths [/a.md] and [/b.md]; the first is added
    a second time. *)
Lemma add_keeps_list_bounded_and_unique_witness :
  recentDocs (add id (lit "linux") (lit "/a.md")
                (run id [Add (lit "linux") (lit "/a.md");
                         Add (lit "linux") (lit "/b.md")]))
  = [lit "/a.md"; lit "/b.md"].
Proof.
  pose proof (add_keeps_list_bounded_and_unique id
                [Add (lit "linux") (lit "/a.md"); Add (lit "linux") (lit "/b.md")]
                (lit "linux") (lit "/a.md")) as Hadd.
  destruct Hadd as (_ & _ & _ & Hmove).
  destruct Hmove as [Hdocs _].
  { vm_compute. right. left. }
  rewrite Hdocs. reflexivity.
Defined.

Example get_sample :
  get sample_heap (Provider [VRef 0] [])
  = Some (sample_heap
            ++ [OArr [VStr (lit "todo")];
                OObj [(lit "path", VStr (lit "/a.md")); (lit "tags", VRef 2)];
                OArr [VRef 3]],
          VRef 4).
Proof. reflexivity. Qed.

(** A descriptor that holds itself cannot be serialized. *)
Example get_cyclic :
  get [OObj [(lit "self", VRef 0)]] (Provider [VRef 0] []) = None.
Proof. reflexivity. Qed.

(** What is no JSON data is not copied as it is: a property that is
    [undefined] is left out, [NaN] becomes [null]. *)
Example get_lossy :
  get [OObj [(lit "path", VStr (lit "/a.md")); (lit "target", VUndefined);
             (lit "hash", VNum NaN)]]
      (Provider [VRef 0] [])
  = Some ([OObj [(lit "path", VStr (lit "/a.md")); (lit "target", VUndefined);
                 (lit "hash", VNum NaN)];
           OObj [(lit "path", VStr (lit "/a.md")); (lit "hash", VNull)];
           OArr [VRef 1]],
          VRef 2).
Proof. reflexivity. Qed.

(** C9, as stated, fails for a descriptor that is no plain JSON data: the
    copy of a descriptor with an [undefined] property and a [NaN] lacks
    the one and holds [null] for the other, so what [get()] returns is
    not structurally equal to the list. *)
Lemma get_copy_differs :
  get [OObj [(lit "path", VStr (lit "/a.md")); (lit "target", VUndefined);
             (lit "hash", VNum NaN)]]
      (Provider [VRef 0] [])
  = Some ([OObj [(lit "path", VStr (lit "/a.md")); (lit "target", VUndefined);
                 (lit "hash", VNum NaN)];
           OObj [(lit "path", VStr (lit "/a.md")); (lit "hash", VNull)];
           OArr [VRef 1]],
          VRef 2)
  ∧ ¬ structurally_equal
        [OObj [(lit "path", VStr (lit "/a.md")); (lit "target", VUndefined);
               (lit "hash", VNum NaN)]]
        (VRef 0)
        [OObj [(lit "path", VStr (lit "/a.md")); (lit "target", VUndefined);
               (lit "hash", VNum NaN)];
         OObj [(lit "path", VStr (lit "/a.md")); (lit "hash", VNull)];
         OArr [VRef 1]]
        (VRef 1).
Proof.
  split; [reflexivity|]. intros (t & H1 & H2).
  inversion H1 as [| | | | |l elems ts Hl Hts|l props ps Hl Hps]; subst;
    simpl in Hl; [done|]. injection Hl as <-.
  inversion H2 as [| | | | |l elems ts Hl Hts|l props qs Hl Hqs]; subst;
    simpl in Hl. injection Hl as <-.
  apply Forall2_length in Hps, Hqs. simpl in Hps, Hqs. congruence.
Qed.

(** C9, amended: when the descriptors in the list are data (each stands
    for a finite tree), [get()] returns a new array whose elements stand
    for the JSON images of those trees; with plain JSON data the array is
    structurally equal to the list.  Every object reached from the returned array is a
    new one, so writing to any of them leaves every descriptor of the list
    as it was.  [hasDocs()] is true exactly when the returned array is not
    empty. *)
Theorem get_returns_deep_copy (h : heap) (p : provider) (ts : list tree) :
  Forall2 (denotes h) (recentDocs p) ts →
  ∃ h' a copies,
    get h p = Some (h', VRef a)
    ∧ h' !! a = Some (OArr copies)
    ∧ Forall2 (denotes h') copies (json_image <$> ts)
    ∧ (forallb is_json ts = true →
         Forall2 (λ v c, structurally_equal h v h' c) (recentDocs p) copies)
    ∧ (∀ l, reaches h' (VRef a) l → length h ≤ l)
    ∧ (∀ l o, reaches h' (VRef a) l →
         Forall2 (denotes (<[l := o]> h')) (recentDocs p) ts)
    ∧ (hasDocs p = true ↔ copies ≠ []).
Proof.
  intros Hdocs.
  set (js := (λ t, default JNull (to_json t)) <$> ts).
  assert (get h p = Some (parse (JArr js) h)) as Hget.
  { unfold get. by rewrite (stringify_array_denotes _ _ _ Hdocs). }
  destruct (parse_allocates (JArr js) h) as (new & Hh' & Hnew & Hv & Hden).
  destruct (parse (JArr js) h) as [h' v]. cbn [fst snd] in Hh', Hv, Hden.
  cbn [of_json] in Hden.
  inversion Hden as [| | | | |a copies ts' Ha Hcopies|]; subst v ts'.
  assert (∀ l, reaches h' (VRef a) l → length h ≤ l) as Hfresh.
  { intros l Hl. eapply reaches_fresh; [|exact Hl|exact Hv].
    intros l0 o Hl0 Hge. rewrite Hh' in Hl0.
    apply lookup_app_Some in Hl0 as [Hl0|[_ Hl0]].
    - apply lookup_lt_Some in Hl0. lia.
    - rewrite Forall_forall in Hnew. apply Hnew.
      by eapply list_elem_of_lookup_2. }
  assert (Forall2 (denotes h') copies (json_image <$> ts)) as Himg.
  { unfold js in Hcopies. by rewrite <- list_fmap_compose in Hcopies. }
  exists h', a, copies. split; [done|]. split; [done|]. split; [done|].
  split; [|split; [done|split]].
  - intros Hjson.
    assert (json_image <$> ts = ts) as Hid.
    { rewrite <- (list_fmap_id ts) at 2. apply list_fmap_ext.
      intros i t Ht. apply json_image_id.
      apply list_elem_of_lookup_2, list_elem_of_In in Ht.
      by apply (proj1 (forallb_forall _ _) Hjson). }
    rewrite Hid in Himg. clear -Hdocs Himg.
    revert copies Himg. induction Hdocs as [|v t vs ts Hv _ IH];
      intros copies Himg; inversion Himg; subst; constructor; [|by apply IH].
    by exists t.
  - intros l o Hl. apply Hfresh in Hl.
    eapply Forall2_impl; [exact Hdocs|]. intros v t. apply denotes_agree.
    intros l0 o0 Hl0. apply lookup_lt_Some in Hl0 as Hlt.
    rewrite list_lookup_insert_ne by lia. rewrite Hh'.
    by apply lookup_app_l_Some.
  - unfold hasDocs. rewrite bool_decide_eq_true.
    apply Forall2_length in Hdocs, Himg. rewrite length_fmap in Himg.
    destruct copies; simpl in *; split; intros; (done || lia).
Qed.

Lemma get_returns_deep_copy_witness :
  ∃ h' a copies,
    get sample_heap (Provider [VRef 0] []) = Some (h', VRef a)
    ∧ h' !! a = Some (OArr copies)
    ∧ Forall2 (denotes h') copies [sample_tree].
Proof.
  destruct (get_returns_deep_copy sample_heap (Provider [VRef 0] [])
              [sample_tree]) as (h' & a & copies & Hget & Ha & Hcopies & _).
  { repeat econstructor. }
  exists h', a, copies. done.
Defined.

End RecentDocsFacts.

(** ** The spellchecker mode *)

Module SpellcheckFacts.
Import JS JSFacts Spellcheck.

Lemma takeWhile_length_le {A} (p : A → bool) l :
  length (takeWhile p l) ≤ length l.
Proof.
  rewrite (takeWhile_prefix p l) at 1. rewrite length_take. lia.
Qed.

Lemma takeWhile_next {A} (p : A → bool) l x :
  l !! length (takeWhile p l) = Some x → p x = false.
Proof.
  induction l as [|y l IH]; simpl; [done|].
  destruct (p y) eqn:Hy; simpl; [done|]. by intros [= <-].
Qed.

Lemma filter_takeWhile {A} (p : A → bool) l :
  List.filter p l
  = takeWhile p l ++ List.filter p (drop (length (takeWhile p l)) l).
Proof.
  induction l as [|y l IH]; simpl; [done|].
  destruct (p y) eqn:Hy; simpl; [by rewrite <- IH|by rewrite Hy].
Qed.

(** *** The cache *)

(** [check] returns the cache's answer and changes no answer. *)
Lemma check_answer d term c :
  (check d term c).1 = answer d c (sane term).
Proof.
  unfold check, answer.
  destruct (spellcheckCache c !! sane term); [done|].
  by destruct (d (sane term)).
Qed.

Lemma check_keeps_answers d term c t :
  answer d (check d term c).2 t = answer d c t.
Proof.
  unfold check, answer.
  destruct (spellcheckCache c !! sane term) as [b|] eqn:Hentry; [done|].
  destruct (d (sane term)) as [b|] eqn:Hd; [|done]. simpl.
  destruct (decide (sane term = t)) as [<-|Hne].
  - by rewrite lookup_insert_eq, Hentry, Hd.
  - by rewrite lookup_insert_ne.
Qed.

Lemma answer_ext d d2 c t : (∀ t, d2 t = d t) → answer d2 c t = answer d c t.
Proof. intros Hd. unfold answer. by rewrite Hd. Qed.

(** C2: a term without an entry makes [check] ask the dictionary, once.
    If the answer is [undefined], [check] returns [true] and stores
    nothing, and the next [check] of the term asks again, whatever the
    dictionary then is.  If the answer is a boolean, [check] returns it
    and has stored it: the next [check] returns it without asking.  A
    term with an entry is answered from the cache, without asking. *)
Theorem check_fails_open (d : dictionary) (term : str) (c : Cache) :
  let t := sane term in
  let r := (check d term c).1 in
  let c' := (check d term c).2 in
  (spellcheckCache c !! t = None →
     queries c' = queries c ++ [(t, d t)]
     ∧ (d t = None →
          r = true
          ∧ spellcheckCache c' = spellcheckCache c
          ∧ ∀ d', (check d' term c').1 = default true (d' t)
                  ∧ queries (check d' term c').2 = queries c' ++ [(t, d' t)])
     ∧ (∀ b, d t = Some b →
          r = b
          ∧ spellcheckCache c' = <[t := b]> (spellcheckCache c)
          ∧ ∀ d', check d' term c' = (b, c')))
  ∧ (∀ b, spellcheckCache c !! t = Some b → check d term c = (b, c)).
Proof.
  intros t r c'. subst r c'. unfold check. fold t. split.
  - intros Hentry. rewrite Hentry.
    destruct (d t) as [b|] eqn:Hd; cbn [fst snd spellcheckCache queries].
    + split; [done|]. split; [done|]. intros b' [= <-].
      split; [done|]. split; [done|]. intros d'.
      by rewrite lookup_insert_eq.
    + split; [done|]. split; [|done]. intros _.
      split; [done|]. split; [done|]. intros d'. rewrite Hentry.
      by destruct (d' t).
  - intros b Hentry. by rewrite Hentry.
Qed.

(** C3: after [invalidate-dict] the hashmap is empty, and the next [check]
    of any term asks the dictionary and returns its answer ([undefined]
    counting as correct), whatever entry the term had before.  The
    listener itself asks nothing. *)
Theorem invalidate_drops_every_entry (c : Cache) :
  spellcheckCache (onDictionaryProvider (lit "invalidate-dict") c) = ∅
  ∧ queries (onDictionaryProvider (lit "invalidate-dict") c) = queries c
  ∧ ∀ d term,
      let t := sane term in
      (check d term (onDictionaryProvider (lit "invalidate-dict") c)).1
      = default true (d t)
      ∧ queries (check d term (onDictionaryProvider (lit "invalidate-dict") c)).2
        = queries c ++ [(t, d t)].
Proof.
  unfold onDictionaryProvider. rewrite bool_decide_eq_true_2 by done.
  split; [done|]. split; [done|]. intros d term. unfold check.
  cbn [spellcheckCache queries]. rewrite lookup_empty.
  by destruct (d (sane term)).
Qed.

(** *** The stream *)

Lemma content_advance n stream : content (advance n stream) = content stream.
Proof. done. Qed.

Lemma remaining_length stream :
  length (remaining stream) = length (content stream) - pos stream.
Proof. unfold remaining. by rewrite length_drop. Qed.

Lemma remaining_advance n stream :
  remaining (advance n stream) = drop n (remaining stream).
Proof.
  unfold remaining, advance. cbn [content pos]. rewrite drop_drop. done.
Qed.

Lemma peek_remaining stream : peek stream = head (remaining stream).
Proof.
  unfold peek, remaining. rewrite <- (Nat.add_0_r (pos stream)) at 1.
  rewrite <- lookup_drop. by destruct (drop _ _).
Qed.

Lemma stream_match_Some re stream stream' :
  stream_match re stream = Some stream' ↔
  ∃ n, re (remaining stream) = Some n ∧ stream' = advance n stream.
Proof.
  unfold stream_match. destruct (re (remaining stream)) as [n|]; simpl.
  - split; [intros [= <-]; by exists n|intros (m & [= <-] & ->); done].
  - split; [done|]. by intros (m & ? & _).
Qed.

Lemma stream_match_None re stream :
  stream_match re stream = None ↔ re (remaining stream) = None.
Proof.
  unfold stream_match. by destruct (re (remaining stream)).
Qed.

(** An undefined character is no separator and no quotation character. *)
Lemma undefined_in_neither :
  str_includes delim None = false ∧ str_includes allQuotes None = false.
Proof. split; reflexivity. Qed.

Lemma word_char_delim ch : word_char ch = false ↔ ch ∈ delim.
Proof.
  unfold word_char, str_includes. rewrite negb_false_iff.
  apply bool_decide_eq_true.
Qed.

(** *** The patterns *)

Lemma dots_then_bound close s n :
  dots_then close s = Some n → 0 < n ≤ length s.
Proof.
  revert n. induction s as [|ch s IH]; intros n; simpl; [done|].
  destruct (is_line_terminator ch); [done|].
  case_bool_decide as Hclose.
  - intros [= <-]. apply prefix_length in Hclose. lia.
  - destruct (dots_then close s) as [m|]; [|done].
    intros [= <-]. specialize (IH m eq_refl). lia.
Qed.

Lemma delimited_ok open close : regexp_ok (delimited open close).
Proof.
  intros s n. unfold delimited. case_bool_decide as Hopen; [|done].
  destruct (dots_then close _) as [m|] eqn:Hm; [|done]. intros [= <-].
  apply dots_then_bound in Hm. rewrite length_drop in Hm.
  apply prefix_length in Hopen. lia.
Qed.

Lemma hashtag_ok : regexp_ok hashtag.
Proof.
  intros s n. unfold hashtag. destruct s as [|ch s]; [done|].
  destruct (ch =? 35)%N; [|done].
  pose proof (takeWhile_length_le word_char s).
  destruct (takeWhile word_char s); [done|]. intros [= <-]. simpl in *. lia.
Qed.

Lemma never_ok : regexp_ok never.
Proof. by intros s n. Qed.

Lemma wiki_config_ok : patterns_ok wiki_config.
Proof.
  split; [apply hashtag_ok|]. split; apply delimited_ok.
Qed.

(** *** [token] *)

Section Token.
Variable cfg : config.

(** [special] answers with the first pattern of the priority list that
    matches at the position. *)
Lemma special_priority stream k stream' :
  special cfg stream = Some (k, stream') ↔
  ∃ i re n,
    priority cfg !! i = Some (k, re)
    ∧ re (remaining stream) = Some n
    ∧ stream' = advance n stream
    ∧ ∀ j k' re', j < i → priority cfg !! j = Some (k', re') →
                  re' (remaining stream) = None.
Proof.
  unfold special, priority.
  set (link := if bool_decide (linkStart cfg ≠ []) then zknLinkRE cfg else never).
  assert ((if bool_decide (linkStart cfg ≠ [])
           then stream_match (zknLinkRE cfg) stream else None)
          = stream_match link stream) as ->.
  { unfold link. by case_bool_decide. }
  split.
  - destruct (stream_match link stream) as [s0|] eqn:H0.
    { intros [= <- <-]. apply stream_match_Some in H0 as (n & Hn & ->).
      exists 0, link, n. repeat split; [done..|]. lia. }
    apply stream_match_None in H0.
    destruct (stream_match (zknTagRE _) stream) as [s1|] eqn:H1.
    { intros [= <- <-]. apply stream_match_Some in H1 as (n & Hn & ->).
      exists 1, (zknTagRE (loaded cfg)), n. repeat split; [done..|].
      intros [|j] k' re' Hj; [|lia]. by intros [= <- <-]. }
    apply stream_match_None in H1.
    destruct (stream_match (codeRE _) stream) as [s2|] eqn:H2.
    { intros [= <- <-]. apply stream_match_Some in H2 as (n & Hn & ->).
      exists 2, (codeRE (loaded cfg)), n. repeat split; [done..|].
      intros [|[|j]] k' re' Hj; [| |lia]; by intros [= <- <-]. }
    apply stream_match_None in H2.
    destruct (stream_match (footnoteRefRE _) stream) as [s3|] eqn:H3; [|done].
    intros [= <- <-]. apply stream_match_Some in H3 as (n & Hn & ->).
    exists 3, (footnoteRefRE (loaded cfg)), n. repeat split; [done..|].
    intros [|[|[|j]]] k' re' Hj; [| | |lia]; by intros [= <- <-].
  - intros (i & re & n & Hi & Hn & -> & Hfirst).
    assert (∀ j k' re', j < i → priority cfg !! j = Some (k', re') →
                        stream_match re' stream = None) as Hnone.
    { intros j k' re' Hj Hre. apply stream_match_None. by eapply Hfirst. }
    assert (stream_match re stream = Some (advance n stream)) as Hre.
    { apply stream_match_Some. by exists n. }
    unfold priority in Hi, Hnone. fold link in Hi, Hnone.
    destruct i as [|[|[|[|i]]]]; simpl in Hi; [| | | |done];
      injection Hi as <- <-.
    + by rewrite Hre.
    + rewrite (Hnone 0 Link link) by (lia || done). by rewrite Hre.
    + rewrite (Hnone 0 Link link) by (lia || done).
      rewrite (Hnone 1 Tag (zknTagRE (loaded cfg))) by (lia || done).
      by rewrite Hre.
    + rewrite (Hnone 0 Link link) by (lia || done).
      rewrite (Hnone 1 Tag (zknTagRE (loaded cfg))) by (lia || done).
      rewrite (Hnone 2 Code (codeRE (loaded cfg))) by (lia || done).
      by rewrite Hre.
Qed.

Lemma priority_special i k re : priority cfg !! i = Some (k, re) → is_special k = true.
Proof.
  unfold priority. destruct i as [|[|[|[|i]]]]; simpl; [| | | |done];
    by intros [= <- _].
Qed.

Lemma priority_ok i k re :
  patterns_ok cfg → priority cfg !! i = Some (k, re) → regexp_ok re.
Proof.
  intros (Htag & Hcode & Hfoot). unfold priority.
  destruct i as [|[|[|[|i]]]]; simpl; [| | | |done]; intros [= _ <-]; try done.
  case_bool_decide; [apply delimited_ok|apply never_ok].
Qed.

Lemma special_Some stream k stream' :
  special cfg stream = Some (k, stream') →
  is_special k = true ∧ ∃ n, stream' = advance n stream
    ∧ (patterns_ok cfg → 0 < n ≤ length (remaining stream)).
Proof.
  intros (i & re & n & Hi & Hn & -> & _)%special_priority.
  split; [by eapply priority_special|]. exists n. split; [done|].
  intros Hok. by eapply priority_ok.
Qed.

(** The ways through [token]. *)
Lemma token_cases d stream c :
  (∃ k stream', special cfg stream = Some (k, stream')
     ∧ token cfg d stream c = Outcome None (Some k) stream' c)
  ∨ (special cfg stream = None
     ∧ ∃ ch, peek stream = Some ch ∧ ch ∈ delim
       ∧ token cfg d stream c = Outcome None None (advance 1 stream) c)
  ∨ (special cfg stream = None
     ∧ str_includes delim (peek stream) = false
     ∧ ((has_number (word_at stream) = true
         ∧ token cfg d stream c = Outcome None (Some Number) (past_word stream) c)
        ∨ (has_number (word_at stream) = false
           ∧ has_link (word_at stream) = true
           ∧ token cfg d stream c = Outcome None (Some URL) (past_link stream) c)
        ∨ (has_number (word_at stream) = false
           ∧ has_link (word_at stream) = false
           ∧ token cfg d stream c
             = Outcome (if (check d (stripQuotes (word_at stream)) c).1
                        then None else Some (lit "spell-error"))
                 (Some Word) (past_word stream)
                 (check d (stripQuotes (word_at stream)) c).2))).
Proof.
  unfold token. destruct (special cfg stream) as [[k stream']|] eqn:Hsp.
  { left. by exists k, stream'. }
  right. destruct (str_includes delim (peek stream)) eqn:Hd.
  { left. split; [done|]. destruct (peek stream) as [ch|] eqn:Hpeek.
    - exists ch. split; [done|]. split; [by apply bool_decide_eq_true in Hd|].
      unfold next. by rewrite Hpeek.
    - by rewrite (proj1 undefined_in_neither) in Hd. }
  right. split; [done|]. split; [done|].
  fold (word_at stream). fold (past_word stream).
  destruct (has_number (word_at stream)); [by left|]. right.
  destruct (has_link (word_at stream)); [by left|]. right.
  split; [done|]. split; [done|].
  by destruct (check d (stripQuotes (word_at stream)) c).
Qed.

(** The word is not empty where the character at the position is no
    separator, and lies in the line. *)
Lemma word_at_bounds stream :
  length (word_at stream) ≤ length (content stream) - pos stream
  ∧ (pos stream < length (content stream) →
     str_includes delim (peek stream) = false → 0 < length (word_at stream)).
Proof.
  unfold word_at. split.
  { rewrite <- remaining_length. apply takeWhile_length_le. }
  intros Hpos. rewrite peek_remaining.
  pose proof (remaining_length stream) as Hlen.
  destruct (remaining stream) as [|ch rest]; [simpl in Hlen; lia|].
  cbn [head takeWhile]. intros Hch. unfold word_char at 1. rewrite Hch.
  cbn [negb length]. lia.
Qed.

(** Every token leaves the line as it is and moves forward in it; with
    patterns that match no empty text, it moves on by at least one
    character and not past the end. *)
Lemma token_moves d stream c :
  content (after (token cfg d stream c)) = content stream
  ∧ pos stream ≤ pos (after (token cfg d stream c))
  ∧ (patterns_ok cfg → pos stream < length (content stream) →
     pos stream < pos (after (token cfg d stream c)) ≤ length (content stream)).
Proof.
  pose proof (word_at_bounds stream) as [Hw1 Hw2].
  pose proof (takeWhile_length_le non_space (remaining (past_word stream))) as Hl.
  rewrite remaining_length in Hl.
  assert (content (past_word stream) = content stream) as Hcontent by done.
  assert (pos (past_word stream) = pos stream + length (word_at stream))
    as Hpast by done.
  destruct (token_cases d stream c)
    as [(k & stream' & Hsp & ->)
       |[(Hsp & ch & Hpeek & Hch & ->)
        |(Hsp & Hd & [[Hn ->]|[(Hn & Hl' & ->)|(Hn & Hl' & ->)]])]];
    cbn [after].
  - apply special_Some in Hsp as (_ & n & -> & Hn). cbn [advance content pos].
    split; [done|]. split; [lia|]. intros Hok Hpos.
    specialize (Hn Hok). rewrite remaining_length in Hn. lia.
  - cbn [advance content pos]. split; [done|]. split; [lia|]. lia.
  - unfold past_word. cbn [advance content pos].
    split; [done|]. split; [lia|]. intros _ Hpos. specialize (Hw2 Hpos Hd). lia.
  - unfold past_link. cbn [advance content pos]. rewrite Hcontent in *.
    split; [done|]. split; [lia|]. intros _ Hpos. specialize (Hw2 Hpos Hd). lia.
  - unfold past_word. cbn [advance content pos].
    split; [done|]. split; [lia|]. intros _ Hpos. specialize (Hw2 Hpos Hd). lia.
Qed.

(** Where a token starts and ends, and what kind it is, depends on
    neither the dictionary nor the cache. *)
Lemma token_extent d c d2 c2 stream :
  site (token cfg d2 stream c2) = site (token cfg d stream c)
  ∧ after (token cfg d2 stream c2) = after (token cfg d stream c).
Proof.
  destruct (token_cases d stream c)
    as [(k & stream' & Hsp & ->)
       |[(Hsp & ch & Hpeek & Hch & ->)
        |(Hsp & Hd & [[Hn ->]|[(Hn & Hl' & ->)|(Hn & Hl' & ->)]])]];
  destruct (token_cases d2 stream c2)
    as [(k2 & stream2 & Hsp2 & ->)
       |[(Hsp2 & ch2 & Hpeek2 & Hch2 & ->)
        |(Hsp2 & Hd2 & [[Hn2 ->]|[(Hn2 & Hl2 & ->)|(Hn2 & Hl2 & ->)]])]];
  cbn [site after]; try congruence;
    try (rewrite Hpeek2 in Hd; by apply bool_decide_eq_false in Hd);
    try (rewrite Hpeek in Hd2; by apply bool_decide_eq_false in Hd2);
    try done.
  rewrite Hsp in Hsp2. by injection Hsp2 as -> ->.
Qed.

(** A token that is no word is returned with [null], without a word to
    the dictionary or a change to the cache. *)
Lemma token_unchecked d stream c :
  site (token cfg d stream c) ≠ Some Word →
  returned (token cfg d stream c) = None
  ∧ cacheAfter (token cfg d stream c) = c.
Proof.
  destruct (token_cases d stream c)
    as [(k & stream' & Hsp & ->)
       |[(Hsp & ch & Hpeek & Hch & ->)
        |(Hsp & Hd & [[Hn ->]|[(Hn & Hl' & ->)|(Hn & Hl' & ->)]])]];
    cbn [site returned cacheAfter]; done.
Qed.

(** A word is returned with what the cache answers, and the token
    changes no answer. *)
Lemma token_answers d stream c :
  (site (token cfg d stream c) = Some Word →
   returned (token cfg d stream c)
   = if answer d c (sane (stripQuotes (word_at stream)))
     then None else Some (lit "spell-error"))
  ∧ ∀ t, answer d (cacheAfter (token cfg d stream c)) t = answer d c t.
Proof.
  destruct (token_cases d stream c)
    as [(k & stream' & Hsp & ->)
       |[(Hsp & ch & Hpeek & Hch & ->)
        |(Hsp & Hd & [[Hn ->]|[(Hn & Hl' & ->)|(Hn & Hl' & ->)]])]];
    cbn [site returned cacheAfter]; try done.
  - split; [|done]. apply special_Some in Hsp as [Hk _].
    intros [= ->]. done.
  - split; [by rewrite check_answer|]. intros t. apply check_keeps_answers.
Qed.

(** A token without a span is one separator. *)
Lemma token_separator d stream c :
  site (token cfg d stream c) = None →
  after (token cfg d stream c) = advance 1 stream
  ∧ ∃ ch, peek stream = Some ch ∧ ch ∈ delim.
Proof.
  destruct (token_cases d stream c)
    as [(k & stream' & Hsp & ->)
       |[(Hsp & ch & Hpeek & Hch & ->)
        |(Hsp & Hd & [[Hn ->]|[(Hn & Hl' & ->)|(Hn & Hl' & ->)]])]];
    cbn [site after]; try done.
  intros _. split; [done|]. by exists ch.
Qed.

(** A special token is the match that [special] finds. *)
Lemma token_special d stream c k :
  site (token cfg d stream c) = Some k → is_special k = true →
  special cfg stream = Some (k, after (token cfg d stream c)).
Proof.
  destruct (token_cases d stream c)
    as [(k' & stream' & Hsp & ->)
       |[(Hsp & ch & Hpeek & Hch & ->)
        |(Hsp & Hd & [[Hn ->]|[(Hn & Hl' & ->)|(Hn & Hl' & ->)]])]];
    cbn [site after]; try done; by intros [= <-].
Qed.

(** A Word or Number token is the word at the position. *)
Lemma token_run d stream c k :
  site (token cfg d stream c) = Some k → is_run k = true →
  after (token cfg d stream c) = past_word stream
  ∧ str_includes delim (peek stream) = false.
Proof.
  destruct (token_cases d stream c)
    as [(k' & stream' & Hsp & ->)
       |[(Hsp & ch & Hpeek & Hch & ->)
        |(Hsp & Hd & [[Hn ->]|[(Hn & Hl' & ->)|(Hn & Hl' & ->)]])]];
    cbn [site after]; try done; try by intros [= <-].
  apply special_Some in Hsp as [Hk _]. intros [= ->].
  by destruct k.
Qed.

Lemma substring_word stream :
  substring (content stream) (pos stream) (pos (past_word stream))
  = word_at stream.
Proof.
  unfold substring, past_word. cbn [advance pos].
  replace (pos stream + length (word_at stream) - pos stream)
    with (length (word_at stream)) by lia.
  unfold word_at. fold (remaining stream). by rewrite <- takeWhile_prefix.
Qed.

(** *** The pass over a line *)

Lemma scan_S fuel d stream c :
  scan (S fuel) cfg d stream c
  = if eol stream then ([], c)
    else (option_list (spanOf (pos stream) (token cfg d stream c))
            ++ (scan fuel cfg d (after (token cfg d stream c))
                  (cacheAfter (token cfg d stream c))).1,
          (scan fuel cfg d (after (token cfg d stream c))
             (cacheAfter (token cfg d stream c))).2).
Proof.
  cbn [scan]. destruct (eol stream); [done|].
  by destruct (scan fuel cfg d _ _).
Qed.

Lemma eol_false stream :
  eol stream = false ↔ pos stream < length (content stream).
Proof. unfold eol. rewrite bool_decide_eq_false. lia. Qed.

Lemma eol_true stream :
  eol stream = true ↔ length (content stream) ≤ pos stream.
Proof. unfold eol. by rewrite bool_decide_eq_true. Qed.

Lemma spanOf_Some start o s :
  spanOf start o = Some s →
  site o = Some (spanKind s)
  ∧ startOffset s = start
  ∧ endOffset s = pos (after o)
  ∧ text s = substring (content (after o)) start (pos (after o))
  ∧ correct s = match spanKind s with
                | Word => Some (bool_decide (returned o = None))
                | _ => None
                end.
Proof.
  unfold spanOf. destruct (site o) as [k|]; [|done]. by intros [= <-].
Qed.

Lemma spanOf_site start o k :
  site o = Some k → ∃ s, spanOf start o = Some s ∧ spanKind s = k.
Proof. unfold spanOf. intros ->. by eexists. Qed.

Lemma spanOf_None start o : site o = None → spanOf start o = None.
Proof. unfold spanOf. by intros ->. Qed.

(** Every span lies in what was left of the line, in the order of the
    pass, and holds what the line holds between its offsets. *)
Lemma scan_bounds fuel :
  ∀ d stream c s,
    s ∈ (scan fuel cfg d stream c).1 →
    pos stream ≤ startOffset s ≤ endOffset s
    ∧ text s = substring (content stream) (startOffset s) (endOffset s)
    ∧ (patterns_ok cfg →
       startOffset s < endOffset s ≤ length (content stream)).
Proof.
  induction fuel as [|fuel IH]; intros d stream c s Hs.
  { by apply elem_of_nil in Hs. }
  rewrite scan_S in Hs. destruct (eol stream) eqn:Heol.
  { by apply elem_of_nil in Hs. }
  apply eol_false in Heol. cbn [fst] in Hs.
  destruct (token_moves d stream c) as (Hcontent & Hle & Hlt).
  apply elem_of_app in Hs as [Hs|Hs].
  - destruct (spanOf _ _) as [s'|] eqn:Hspan; simpl in Hs;
      [|by apply elem_of_nil in Hs].
    apply list_elem_of_singleton in Hs as ->.
    apply spanOf_Some in Hspan as (_ & -> & -> & -> & _).
    rewrite Hcontent. split; [lia|]. split; [done|].
    intros Hok. by apply Hlt.
  - apply IH in Hs as (H1 & H2 & H3). rewrite Hcontent in H2, H3.
    split; [lia|]. done.
Qed.

Lemma scan_ordered fuel : ∀ d stream c, ordered (scan fuel cfg d stream c).1.
Proof.
  induction fuel as [|fuel IH]; intros d stream c; [constructor|].
  rewrite scan_S. destruct (eol stream); [constructor|]. cbn [fst].
  destruct (spanOf _ _) as [s|] eqn:Hspan; cbn [option_list]; [|apply IH].
  simpl. constructor; [apply IH|].
  apply Forall_forall. intros s' Hs'.
  apply scan_bounds in Hs' as (Hs' & _).
  apply spanOf_Some in Hspan as (_ & _ & -> & _). lia.
Qed.

(** Two spans of an ordered sequence do not overlap. *)
Lemma ordered_disjoint ss a b :
  ordered ss → a ∈ ss → b ∈ ss → a ≠ b →
  endOffset a ≤ startOffset b ∨ endOffset b ≤ startOffset a.
Proof.
  induction 1 as [|x ss _ IH Hx]; intros Ha Hb Hne.
  { by apply elem_of_nil in Ha. }
  rewrite Forall_forall in Hx.
  apply elem_of_cons in Ha as [->|Ha]; apply elem_of_cons in Hb as [->|Hb].
  - done.
  - left. by apply Hx.
  - right. by apply Hx.
  - by apply IH.
Qed.

(** With patterns that match no empty text and fuel for every character
    that is left, every character is in a span or is a separator. *)
Lemma scan_covers fuel :
  patterns_ok cfg →
  ∀ d stream c i ch,
    length (content stream) - pos stream ≤ fuel →
    pos stream ≤ i → content stream !! i = Some ch →
    (∃ s, s ∈ (scan fuel cfg d stream c).1 ∧ covers s i) ∨ ch ∈ delim.
Proof.
  intros Hok.
  induction fuel as [|fuel IH]; intros d stream c i ch Hfuel Hi Hch;
    apply lookup_lt_Some in Hch as Hlt; [lia|].
  rewrite scan_S. destruct (eol stream) eqn:Heol.
  { apply eol_true in Heol. lia. }
  apply eol_false in Heol. cbn [fst].
  destruct (token_moves d stream c) as (Hcontent & _ & Hmove).
  specialize (Hmove Hok Heol).
  destruct (decide (i < pos (after (token cfg d stream c)))) as [Hin|Hout].
  - destruct (site (token cfg d stream c)) as [k|] eqn:Hsite.
    + left. destruct (spanOf_site (pos stream) _ k Hsite) as (s & Hs & _).
      exists s. rewrite Hs. split; [apply elem_of_app; left; by left|].
      apply spanOf_Some in Hs as (_ & Hstart & Hend & _).
      unfold covers. lia.
    + right. apply token_separator in Hsite as (Hafter & ch' & Hpeek & Hdelim).
      rewrite Hafter in Hin. cbn [advance pos] in Hin.
      assert (i = pos stream) as -> by lia.
      unfold peek in Hpeek. congruence.
  - destruct (IH d (after (token cfg d stream c))
                (cacheAfter (token cfg d stream c)) i ch)
      as [(s & Hs & Hcov)|Hdelim]; [rewrite Hcontent; lia|lia|by rewrite Hcontent| |].
    + left. exists s. split; [|done]. apply elem_of_app. by right.
    + by right.
Qed.

(** A Word or Number span holds no separator and ends at a separator or
    at the end of the line. *)
Lemma scan_runs fuel :
  ∀ d stream c s,
    s ∈ (scan fuel cfg d stream c).1 → is_run (spanKind s) = true →
    Forall (λ ch, ch ∉ delim) (text s)
    ∧ ∀ ch, content stream !! endOffset s = Some ch → ch ∈ delim.
Proof.
  induction fuel as [|fuel IH]; intros d stream c s Hs Hk.
  { by apply elem_of_nil in Hs. }
  rewrite scan_S in Hs. destruct (eol stream) eqn:Heol.
  { by apply elem_of_nil in Hs. }
  cbn [fst] in Hs.
  destruct (token_moves d stream c) as (Hcontent & _).
  apply elem_of_app in Hs as [Hs|Hs].
  - destruct (spanOf _ _) as [s'|] eqn:Hspan; simpl in Hs;
      [|by apply elem_of_nil in Hs].
    apply list_elem_of_singleton in Hs as ->.
    apply spanOf_Some in Hspan as (Hsite & Hstart & Hend & Htext & _).
    destruct (token_run d stream c _ Hsite Hk) as [Hafter _].
    rewrite Hcontent, Hafter in Htext. rewrite Hafter in Hend.
    rewrite substring_word in Htext. rewrite Htext, Hend. split.
    + eapply Forall_impl; [apply takeWhile_Forall|].
      intros ch Hch Hin. apply word_char_delim in Hin. congruence.
    + intros ch Hch. apply word_char_delim.
      apply (takeWhile_next word_char (remaining stream)).
      fold (word_at stream). unfold remaining. rewrite lookup_drop. done.
  - apply IH in Hs as [H1 H2]; [|done]. by rewrite Hcontent in H2.
Qed.

Lemma spans_text_app ss1 ss2 :
  spans_text (ss1 ++ ss2) = spans_text ss1 ++ spans_text ss2.
Proof. unfold spans_text. by rewrite fmap_app, concat_app. Qed.

(** Where every span is a Word or a Number span, the texts of the spans
    are the characters that are no separators. *)
Lemma scan_text fuel :
  ∀ d stream c,
    length (content stream) - pos stream ≤ fuel →
    (∀ s, s ∈ (scan fuel cfg d stream c).1 → is_run (spanKind s) = true) →
    spans_text (scan fuel cfg d stream c).1
    = List.filter word_char (remaining stream).
Proof.
  induction fuel as [|fuel IH]; intros d stream c Hfuel Hruns.
  { unfold remaining. by rewrite drop_ge by lia. }
  rewrite scan_S in Hruns |- *. destruct (eol stream) eqn:Heol.
  { apply eol_true in Heol. unfold remaining. by rewrite drop_ge by lia. }
  apply eol_false in Heol. cbn [fst] in Hruns |- *.
  destruct (token_moves d stream c) as (Hcontent & _).
  pose proof (word_at_bounds stream) as [_ Hword].
  rewrite spans_text_app.
  destruct (site (token cfg d stream c)) as [k|] eqn:Hsite.
  - destruct (spanOf_site (pos stream) _ k Hsite) as (s & Hs & Hk).
    assert (is_run k = true) as Hrun.
    { rewrite <- Hk. apply Hruns. rewrite Hs. apply elem_of_app. left. by left. }
    destruct (token_run d stream c k Hsite Hrun) as [Hafter Hd].
    specialize (Hword Heol Hd).
    rewrite IH.
    + rewrite Hs. apply spanOf_Some in Hs as (_ & Hstart & _ & Htext & _).
      rewrite Hcontent, Hafter, substring_word in Htext.
      unfold spans_text. simpl. rewrite Htext, app_nil_r.
      rewrite Hafter. unfold past_word. rewrite remaining_advance.
      unfold word_at. by rewrite <- filter_takeWhile.
    + rewrite Hcontent, Hafter. unfold past_word. cbn [advance pos]. lia.
    + intros s' Hs'. apply Hruns. apply elem_of_app. by right.
  - rewrite (spanOf_None _ _ Hsite). simpl.
    apply token_separator in Hsite as (Hafter & ch & Hpeek & Hdelim).
    rewrite IH.
    + rewrite Hafter, remaining_advance.
      rewrite peek_remaining in Hpeek.
      destruct (remaining stream) as [|ch' rest]; [done|].
      injection Hpeek as ->. simpl.
      apply word_char_delim in Hdelim. by rewrite Hdelim.
    + rewrite Hcontent, Hafter. cbn [advance pos]. lia.
    + intros s' Hs'. apply Hruns. apply elem_of_app. by right.
Qed.

(** A special span is the winning match at its start. *)
Lemma scan_special fuel :
  ∀ d stream c s,
    s ∈ (scan fuel cfg d stream c).1 → is_special (spanKind s) = true →
    special cfg (mkStream (content stream) (startOffset s))
    = Some (spanKind s, mkStream (content stream) (endOffset s)).
Proof.
  induction fuel as [|fuel IH]; intros d stream c s Hs Hk.
  { by apply elem_of_nil in Hs. }
  rewrite scan_S in Hs. destruct (eol stream) eqn:Heol.
  { by apply elem_of_nil in Hs. }
  cbn [fst] in Hs.
  destruct (token_moves d stream c) as (Hcontent & _).
  apply elem_of_app in Hs as [Hs|Hs].
  - destruct (spanOf _ _) as [s'|] eqn:Hspan; simpl in Hs;
      [|by apply elem_of_nil in Hs].
    apply list_elem_of_singleton in Hs as ->.
    apply spanOf_Some in Hspan as (Hsite & Hstart & Hend & _).
    pose proof (token_special d stream c _ Hsite Hk) as Hsp.
    rewrite Hstart, Hend, <- Hcontent.
    destruct stream as [line p]. cbn [content pos] in *. rewrite Hcontent at 1.
    rewrite Hsp. by destruct (after _).
  - apply IH in Hs; [|done]. by rewrite Hcontent in Hs.
Qed.

(** The spans without their [correct] fields depend on neither the
    dictionary nor the cache. *)
Lemma scan_outline fuel :
  ∀ d c d2 c2 stream,
    outline <$> (scan fuel cfg d2 stream c2).1
    = outline <$> (scan fuel cfg d stream c).1.
Proof.
  induction fuel as [|fuel IH]; intros d c d2 c2 stream; [done|].
  rewrite !scan_S. destruct (eol stream); [done|]. cbn [fst].
  destruct (token_extent d c d2 c2 stream) as [Hsite Hafter].
  rewrite !fmap_app. f_equal.
  - unfold spanOf. rewrite Hsite, Hafter.
    by destruct (site (token cfg d stream c)).
  - rewrite Hafter. apply IH.
Qed.

(** The pass changes no answer of the cache. *)
Lemma scan_keeps_answers fuel :
  ∀ d stream c t, answer d (scan fuel cfg d stream c).2 t = answer d c t.
Proof.
  induction fuel as [|fuel IH]; intros d stream c t; [done|].
  rewrite scan_S. destruct (eol stream); [done|]. cbn [snd].
  rewrite IH. apply token_answers.
Qed.

(** The spans are settled by the answers of the cache. *)
Lemma scan_same_answers fuel :
  ∀ d c d2 c2 stream,
    (∀ t, answer d2 c2 t = answer d c t) →
    (scan fuel cfg d2 stream c2).1 = (scan fuel cfg d stream c).1.
Proof.
  induction fuel as [|fuel IH]; intros d c d2 c2 stream Hsame; [done|].
  rewrite !scan_S. destruct (eol stream); [done|]. cbn [fst].
  destruct (token_extent d c d2 c2 stream) as [Hsite Hafter].
  destruct (token_answers d stream c) as [Hret Hans].
  destruct (token_answers d2 stream c2) as [Hret2 Hans2].
  f_equal.
  - unfold spanOf. rewrite Hsite, Hafter.
    destruct (site (token cfg d stream c)) as [k|] eqn:Hk; [|done]. simpl.
    destruct (decide (k = Word)) as [->|Hne].
    + rewrite Hret by done. rewrite Hret2 by congruence. by rewrite Hsame.
    + by destruct k.
  - rewrite Hafter. apply IH. intros t. by rewrite Hans2, Hans.
Qed.

(** Where no span is a Word span, nothing is asked and the cache stays
    as it is. *)
Lemma scan_unchecked fuel :
  ∀ d stream c,
    (∀ s, s ∈ (scan fuel cfg d stream c).1 → spanKind s ≠ Word) →
    (scan fuel cfg d stream c).2 = c.
Proof.
  induction fuel as [|fuel IH]; intros d stream c Hnone; [done|].
  rewrite scan_S in Hnone |- *. destruct (eol stream); [done|].
  cbn [fst snd] in Hnone |- *.
  assert (site (token cfg d stream c) ≠ Some Word) as Hsite.
  { intros Hsite. destruct (spanOf_site (pos stream) _ _ Hsite) as (s & Hs & Hk).
    apply (Hnone s); [|done]. rewrite Hs. apply elem_of_app. left. by left. }
  destruct (token_unchecked d stream c Hsite) as [_ Hcache].
  rewrite IH; [done|]. intros s Hs. apply Hnone. apply elem_of_app. by right.
Qed.

(** A span that is no Word span has no [correct] value. *)
Lemma scan_correct fuel :
  ∀ d stream c s,
    s ∈ (scan fuel cfg d stream c).1 → spanKind s ≠ Word → correct s = None.
Proof.
  induction fuel as [|fuel IH]; intros d stream c s Hs Hk.
  { by apply elem_of_nil in Hs. }
  rewrite scan_S in Hs. destruct (eol stream) eqn:Heol.
  { by apply elem_of_nil in Hs. }
  cbn [fst] in Hs. apply elem_of_app in Hs as [Hs|Hs]; [|by eapply IH].
  destruct (spanOf _ _) as [s'|] eqn:Hspan; simpl in Hs;
    [|by apply elem_of_nil in Hs].
  apply list_elem_of_singleton in Hs as ->.
  apply spanOf_Some in Hspan as (_ & _ & _ & _ & ->). by destruct (spanKind s').
Qed.

(** A stream further on in the same line. *)
Lemma remaining_after d stream c :
  remaining (after (token cfg d stream c))
  = drop (pos (after (token cfg d stream c)) - pos stream) (remaining stream).
Proof.
  destruct (token_moves d stream c) as (Hcontent & Hle & _).
  unfold remaining. rewrite Hcontent, drop_drop. f_equal. lia.
Qed.

Lemma digit_word_char ch : is_digit ch = true → word_char ch = true.
Proof.
  intros Hdigit. destruct (word_char ch) eqn:Hch; [done|].
  apply word_char_delim in Hch. unfold delim in Hch.
  repeat (apply elem_of_cons in Hch as [->|Hch]; [done|]).
  by apply elem_of_nil in Hch.
Qed.

(** In text made of digits no token is a word. *)
Lemma token_digits d stream c :
  eol stream = false →
  Forall (λ ch, is_digit ch = true) (remaining stream) →
  site (token cfg d stream c) ≠ Some Word.
Proof.
  intros Heol Hdigits Hsite. apply eol_false in Heol.
  pose proof (remaining_length stream) as Hlen.
  destruct (token_cases d stream c)
    as [(k & stream' & Hsp & Htoken)
       |[(Hsp & ch & Hpeek & Hch & Htoken)
        |(Hsp & Hd & [[Hn Htoken]|[(Hn & Hl' & Htoken)|(Hn & Hl' & Htoken)]])]];
    rewrite Htoken in Hsite; cbn [site] in Hsite; try done.
  - apply special_Some in Hsp as [Hk _]. by injection Hsite as ->.
  - unfold word_at in Hn.
    destruct (remaining stream) as [|ch rest]; [simpl in Hlen; lia|].
    apply Forall_cons in Hdigits as [Hch _]. cbn [takeWhile] in Hn.
    rewrite (digit_word_char ch Hch) in Hn. cbn [has_number existsb] in Hn.
    by rewrite Hch in Hn.
Qed.

Lemma scan_digits fuel :
  ∀ d stream c s,
    Forall (λ ch, is_digit ch = true) (remaining stream) →
    s ∈ (scan fuel cfg d stream c).1 → spanKind s ≠ Word.
Proof.
  induction fuel as [|fuel IH]; intros d stream c s Hdigits Hs.
  { by apply elem_of_nil in Hs. }
  rewrite scan_S in Hs. destruct (eol stream) eqn:Heol.
  { by apply elem_of_nil in Hs. }
  cbn [fst] in Hs. apply elem_of_app in Hs as [Hs|Hs].
  - destruct (spanOf _ _) as [s'|] eqn:Hspan; simpl in Hs;
      [|by apply elem_of_nil in Hs].
    apply list_elem_of_singleton in Hs as ->.
    apply spanOf_Some in Hspan as (Hsite & _). intros Hk.
    apply (token_digits d stream c Heol Hdigits). by rewrite Hsite, Hk.
  - eapply IH; [|exact Hs]. rewrite remaining_after. by apply Forall_drop.
Qed.

End Token.

(** *** Line records *)

Lemma scanRecord_annotate cfg d r c :
  spans (scanRecord cfg d r c).1 = (annotate cfg d (rawText r) c).1
  ∧ rawText (scanRecord cfg d r c).1 = rawText r
  ∧ lineIndex (scanRecord cfg d r c).1 = lineIndex r
  ∧ dirty (scanRecord cfg d r c).1 = false
  ∧ (scanRecord cfg d r c).2 = (annotate cfg d (rawText r) c).2.
Proof.
  unfold scanRecord. by destruct (annotate cfg d (rawText r) c).
Qed.

(** *** The claims about the tokens *)

(** C1, amended: for every line the spans are ordered and do not overlap;
    each span is a non-empty stretch of the line and its text is what the
    line holds between its offsets; every character of the line that is
    in no span is a separator; a Word or Number span holds no separator
    and ends at a separator or at the end of the line.  So the texts of
    the spans are exactly the characters that are no separators wherever
    all spans are Word or Number spans; a link, tag, code, footnote or
    URL span keeps the separators it holds.  The empty line has no
    span. *)
Theorem tokenize_covers_line (cfg : config) (d : dictionary) (c : Cache)
    (line : str) :
  patterns_ok cfg →
  ordered (tokenize cfg d line c)
  ∧ (∀ s, s ∈ tokenize cfg d line c →
       startOffset s < endOffset s ≤ length line
       ∧ text s = substring line (startOffset s) (endOffset s))
  ∧ (∀ i ch, line !! i = Some ch →
       (∃ s, s ∈ tokenize cfg d line c ∧ covers s i) ∨ ch ∈ delim)
  ∧ (∀ s, s ∈ tokenize cfg d line c → is_run (spanKind s) = true →
       Forall (λ ch, ch ∉ delim) (text s)
       ∧ ∀ ch, line !! endOffset s = Some ch → ch ∈ delim)
  ∧ ((∀ s, s ∈ tokenize cfg d line c → is_run (spanKind s) = true) →
       spans_text (tokenize cfg d line c) = non_delimiters line)
  ∧ tokenize cfg d [] c = [].
Proof.
  intros Hok. unfold tokenize, annotate.
  split; [apply scan_ordered|]. split; [|split; [|split; [|split; [|done]]]].
  - intros s (_ & Htext & Hin)%scan_bounds. split; [by apply Hin|done].
  - intros i ch Hch.
    apply (scan_covers cfg (length line) Hok d (mkStream line 0) c i ch);
      [simpl; lia|simpl; lia|done].
  - intros s Hs Hk. by apply (scan_runs cfg _ _ _ _ _ Hs).
  - intros Hruns. unfold non_delimiters.
    rewrite scan_text; [done|simpl; lia|done].
Qed.

(** C4: at the position of the stream the patterns are tried in the order
    link, tag, inline code, footnote reference, and the first that matches
    wins: [token] returns past its match, with [null] and without a word
    to [check].  So every special span of a line is the winning match at
    its start, and no other span overlaps it: what a special span holds is
    never a word of its own.  The example line gives the four spans of
    the design document; and [[^1]] is a link, not a footnote reference,
    where the link delimiters are [[^] and []]. *)
Theorem special_spans_take_priority (cfg : config) (d : dictionary) (c : Cache) :
  (∀ stream i k re n,
     priority cfg !! i = Some (k, re) →
     re (remaining stream) = Some n →
     (∀ j k' re', j < i → priority cfg !! j = Some (k', re') →
                  re' (remaining stream) = None) →
     token cfg d stream c = Outcome None (Some k) (advance n stream) c)
  ∧ (∀ line s,
       s ∈ tokenize cfg d line c → is_special (spanKind s) = true →
       ∃ i re,
         priority cfg !! i = Some (spanKind s, re)
         ∧ re (drop (startOffset s) line) = Some (endOffset s - startOffset s)
         ∧ ∀ j k' re', j < i → priority cfg !! j = Some (k', re') →
                       re' (drop (startOffset s) line) = None)
  ∧ (∀ line s w,
       s ∈ tokenize cfg d line c → w ∈ tokenize cfg d line c →
       is_special (spanKind s) = true → is_special (spanKind w) = false →
       endOffset w ≤ startOffset s ∨ endOffset s ≤ startOffset w)
  ∧ outline <$> tokenize wiki_config d sample_line c
    = [(Word, lit "See", 0, 3); (Link, lit "[[note]]", 4, 12);
       (Tag, lit "#idea", 13, 18); (Word, lit "here", 19, 23)]
  ∧ outline <$> tokenize (Config (lit "[^") (lit "]") example_patterns) d
                  (lit "[^1]") c
    = [(Link, lit "[^1]", 0, 4)].
Proof.
  split; [|split; [|split; [|split]]].
  - intros stream i k re n Hi Hn Hfirst.
    assert (special cfg stream = Some (k, advance n stream)) as Hsp.
    { apply special_priority. by exists i, re, n. }
    destruct (token_cases cfg d stream c)
      as [(k' & stream' & Hsp' & ->)|[(Hsp' & _)|(Hsp' & _)]]; congruence.
  - intros line s Hs Hk. unfold tokenize, annotate in Hs.
    pose proof (scan_special cfg _ _ _ _ _ Hs Hk) as Hsp.
    cbn [content] in Hsp.
    apply special_priority in Hsp as (i & re & n & Hi & Hn & Hadv & Hfirst).
    injection Hadv as Hend. exists i, re. split; [done|].
    unfold remaining in Hn, Hfirst. cbn [content pos] in Hn, Hfirst.
    split; [|done]. rewrite Hn. f_equal. lia.
  - intros line s w Hs Hw Hk Hword.
    eapply ordered_disjoint;
      [apply (scan_ordered cfg (length line) d (mkStream line 0) c)|done..|].
    intros ->. by rewrite Hword in Hk.
  - unfold tokenize, annotate.
    rewrite (scan_outline wiki_config _ (λ _, None) emptyCache d c).
    by vm_compute.
  - unfold tokenize, annotate.
    rewrite (scan_outline _ _ (λ _, None) emptyCache d c).
    by vm_compute.
Qed.

(** C7: a token that is no word is returned with [null], and [check] is
    not called for it: no span but a Word span has a [correct] value, and
    a line without a Word span leaves the cache as it is.  A line of
    digits has no Word span, whatever the configuration.  [42] is one
    Number span and [https://example.com] is one URL span, both without a
    [correct] value, whatever the dictionary and the cache hold. *)
Theorem numbers_and_urls_are_not_checked (cfg : config) (d : dictionary)
    (c : Cache) :
  (∀ stream, site (token cfg d stream c) ≠ Some Word →
     returned (token cfg d stream c) = None
     ∧ cacheAfter (token cfg d stream c) = c)
  ∧ (∀ line s,
       s ∈ (annotate cfg d line c).1 → spanKind s ≠ Word → correct s = None)
  ∧ (∀ line,
       (∀ s, s ∈ (annotate cfg d line c).1 → spanKind s ≠ Word) →
       (annotate cfg d line c).2 = c)
  ∧ (∀ line s,
       Forall (λ ch, is_digit ch = true) line →
       s ∈ (annotate cfg d line c).1 → spanKind s ≠ Word)
  ∧ (special cfg (mkStream (lit "42") 0) = None →
       annotate cfg d (lit "42") c = ([mkSpan Number (lit "42") 0 2 None], c))
  ∧ (special cfg (mkStream (lit "https://example.com") 0) = None →
       annotate cfg d (lit "https://example.com") c
       = ([mkSpan URL (lit "https://example.com") 0 19 None], c)).
Proof.
  split; [intros stream; apply token_unchecked|].
  split; [|split; [|split; [|split]]].
  - intros line s. apply scan_correct.
  - intros line. apply scan_unchecked.
  - intros line s Hdigits. by apply scan_digits.
  - intros Hsp. unfold annotate.
    change (length (lit "42")) with 2. rewrite scan_S. unfold token.
    rewrite Hsp. by vm_compute.
  - intros Hsp. unfold annotate.
    change (length (lit "https://example.com")) with 19. rewrite scan_S.
    unfold token. rewrite Hsp. by vm_compute.
Qed.

(** C5, amended: a record that was just scanned is Clean and keeps its
    raw text; scanning it again gives spans of the same kinds, texts and
    offsets, and gives the very same spans when the dictionary answers
    every term as it did during the first scan. *)
Theorem rescan_with_same_answers (cfg : config) (d d2 : dictionary)
    (r : LineRecord) (c : Cache) :
  let r1 := (scanRecord cfg d r c).1 in
  let c1 := (scanRecord cfg d r c).2 in
  let r2 := (scanRecord cfg d2 r1 c1).1 in
  dirty r1 = false
  ∧ rawText r1 = rawText r
  ∧ outline <$> spans r2 = outline <$> spans r1
  ∧ ((∀ t, d2 t = d t) → spans r2 = spans r1).
Proof.
  intros r1 c1 r2.
  destruct (scanRecord_annotate cfg d r c) as (Hs1 & Hraw1 & _ & Hd1 & Hc1).
  destruct (scanRecord_annotate cfg d2 r1 c1) as (Hs2 & _).
  fold r1 c1 in Hs1, Hraw1, Hd1, Hc1. fold r2 in Hs2.
  split; [done|]. split; [done|]. rewrite Hs2, Hs1, Hraw1.
  unfold annotate. split; [apply scan_outline|].
  intros Hsame. apply scan_same_answers. intros t.
  rewrite (answer_ext d d2 c1 t Hsame), Hc1. apply scan_keeps_answers.
Qed.

(** *** Controller *)

Lemma onBufferChange_in_place text i ctl :
  onBufferChange text [i] 0 ctl
  = mkController (touch text i <$> records ctl) (cache ctl) (scanned ctl).
Proof.
  unfold onBufferChange. f_equal. apply list_fmap_ext. intros k r _.
  unfold touch. simpl.
  rewrite (bool_decide_ext (lineIndex r ∈ [i]) (lineIndex r = i))
    by apply list_elem_of_singleton.
  done.
Qed.

Lemma touch_other text i r : lineIndex r ≠ i → touch text i r = r.
Proof. intros Hne. unfold touch. by rewrite bool_decide_eq_false_2. Qed.

Lemma touch_lineIndex text i r : lineIndex (touch text i r) = lineIndex r.
Proof. unfold touch. by case_bool_decide. Qed.

Lemma find_after_touch text i j rs :
  j ≠ i →
  list_find (λ r, lineIndex r = j) (touch text i <$> rs)
  = list_find (λ r, lineIndex r = j) rs.
Proof.
  intros Hne. rewrite list_find_fmap.
  rewrite (list_find_ext _ (λ r, lineIndex r = j))
    by (intros r; simpl; by rewrite touch_lineIndex).
  destruct (list_find _ rs) as [[k r]|] eqn:Hfind; [|done].
  apply list_find_Some in Hfind as (_ & Hj & _). simpl.
  rewrite touch_other; [done|congruence].
Qed.

(** The flush scans the Dirty records, in order, and no other. *)
Lemma flushRecords_spec cfg d rs :
  ∀ c,
    (flushRecords cfg d rs c).2
    = lineIndex <$> filter (λ r, dirty r = true) rs
    ∧ Forall2 (λ r r', dirty r = false → r' = r)
        rs (flushRecords cfg d rs c).1.1.
Proof.
  induction rs as [|r rs IH]; intros c; [by split; [|constructor]|].
  simpl. destruct (dirty r) eqn:Hd.
  - destruct (scanRecord cfg d r c) as [r' c1].
    destruct (IH c1) as [IH1 IH2].
    destruct (flushRecords cfg d rs c1) as [[rs' c2] done].
    simpl in *. rewrite filter_cons_True by done. split; [by rewrite IH1|].
    constructor; [by rewrite Hd|done].
  - destruct (IH c) as [IH1 IH2].
    destruct (flushRecords cfg d rs c) as [[rs' c2] done].
    simpl in *. rewrite filter_cons_False by (by rewrite Hd).
    split; [done|]. by constructor.
Qed.

(** C6: after an in-place edit of line [i], the record of line [i] is
    Dirty and every other record is as it was; the edit itself runs no
    scan.  For every other line [getSpans] returns what it returned
    before the edit, and for a Clean one it returns the stored spans
    without a scan.  A flush scans the Dirty records and no other, and
    leaves the Clean records as they are. *)
Theorem edit_marks_one_line cfg (d : dictionary) (text : nat → str)
    (i : nat) (ctl : Controller) :
  let ctl' := onBufferChange text [i] 0 ctl in
  Forall2 (λ r r', lineIndex r' = lineIndex r
                   ∧ spans r' = spans r
                   ∧ if bool_decide (lineIndex r = i)
                     then dirty r' = true else r' = r)
    (records ctl) (records ctl')
  ∧ cache ctl' = cache ctl
  ∧ scanned ctl' = scanned ctl
  ∧ (∀ j, j ≠ i →
       (getSpans cfg d j ctl').1 = (getSpans cfg d j ctl).1)
  ∧ (∀ j k r, j ≠ i →
       list_find (λ r, lineIndex r = j) (records ctl) = Some (k, r) →
       dirty r = false →
       getSpans cfg d j ctl' = (spans r, ctl'))
  ∧ scanned (flush cfg d ctl')
    = scanned ctl' ++ (lineIndex <$> filter (λ r, dirty r = true) (records ctl'))
  ∧ Forall2 (λ r r', dirty r = false → r' = r)
      (records ctl') (records (flush cfg d ctl')).
Proof.
  intros ctl'. subst ctl'. rewrite onBufferChange_in_place. cbn [records cache scanned].
  split; [|split; [done|split; [done|split; [|split; [|split]]]]].
  - apply Forall2_fmap_r, Forall_Forall2_diag, Forall_forall.
    intros r _. simpl. rewrite touch_lineIndex. unfold touch.
    by case_bool_decide.
  - intros j Hne. unfold getSpans. cbn [records cache scanned].
    rewrite find_after_touch by done.
    destruct (list_find _ (records ctl)) as [[k r]|]; [|done].
    destruct (dirty r); [|done].
    by destruct (scanRecord cfg d r (cache ctl)).
  - intros j k r Hne Hfind Hclean. unfold getSpans. cbn [records].
    rewrite find_after_touch by done. by rewrite Hfind, Hclean.
  - unfold flush. cbn [records cache scanned].
    pose proof (flushRecords_spec cfg d (touch text i <$> records ctl) (cache ctl))
      as [Hdone _].
    destruct (flushRecords _ _ _ _) as [[rs c] done]. simpl in *.
    by rewrite Hdone.
  - unfold flush. cbn [records cache scanned].
    pose proof (flushRecords_spec cfg d (touch text i <$> records ctl) (cache ctl))
      as [_ Hkeep].
    by destruct (flushRecords _ _ _ _) as [[rs c] done].
Qed.

(** *** Examples *)

(** The cached [false] of a term is dropped by an invalidation: the next
    [check] asks the dictionary again. *)
Example invalidate_requeries :
  check (λ _, Some true) (lit "mispelled")
    (onDictionaryProvider (lit "invalidate-dict")
       (check (λ _, Some false) (lit "mispelled") emptyCache).2)
  = (true,
     mkCache {[ lit "mispelled" := true ]}
       [(lit "mispelled", Some false); (lit "mispelled", Some true)]).
Proof. reflexivity. Qed.

(** Any other command leaves the cache as it is. *)
Example other_command_keeps_cache :
  onDictionaryProvider (lit "check")
    (check (λ _, Some false) (lit "mispelled") emptyCache).2
  = (check (λ _, Some false) (lit "mispelled") emptyCache).2.
Proof. reflexivity. Qed.

Example check_twice_while_not_ready :
  queries (check (λ _, None) (lit "foo")
             (check (λ _, None) (lit "foo") emptyCache).2).2
  = [(lit "foo", None); (lit "foo", None)].
Proof. reflexivity. Qed.

(** The nine quotation characters of the pattern are replaced where they
    stand in a row; one of them alone stays. *)
Example sane_replaces_the_row :
  sane (lit "a" ++ smartQuotes ++ lit "b") = lit "a'b"
  ∧ sane (lit "it" ++ [8217%N] ++ lit "s") = lit "it" ++ [8217%N] ++ lit "s".
Proof. split; reflexivity. Qed.

Example tokenize_url :
  outline <$> tokenize wiki_config (λ _, None)
                (lit "see https://example.com/a-b now") emptyCache
  = [(Word, lit "see", 0, 3); (URL, lit "https://example.com/a-b", 4, 27);
     (Word, lit "now", 28, 31)].
Proof. reflexivity. Qed.

Example tokenize_code_and_footnote :
  outline <$> tokenize wiki_config (λ _, None) (lit "a `b c`[^1] 42") emptyCache
  = [(Word, lit "a", 0, 1); (Code, lit "`b c`", 2, 7);
     (FootnoteRef, lit "[^1]", 7, 11); (Number, lit "42", 12, 14)].
Proof. reflexivity. Qed.

(** A word that holds a digit is passed over, as is a word that holds
    [http]; [www] alone is checked, since no word holds a dot. *)
Example tokenize_digit_inside :
  outline <$> tokenize wiki_config (λ _, None) (lit "a4b xhttpx www.x") emptyCache
  = [(Number, lit "a4b", 0, 3); (URL, lit "xhttpx", 4, 10);
     (Word, lit "www", 11, 14); (Word, lit "x", 15, 16)].
Proof. reflexivity. Qed.

(** An apostrophe is a quotation character and no separator: the token
    covers the quoted word with its quotes, and the word is checked
    without them. *)
Example tokenize_quoted :
  annotate wiki_config (λ t, Some (bool_decide (t = lit "hello")))
    (lit "'hello'") emptyCache
  = ([mkSpan Word (lit "'hello'") 0 7 (Some true)],
     mkCache {[ lit "hello" := true ]} [(lit "hello", Some true)]).
Proof. reflexivity. Qed.

(** C1, as stated, fails on the example line and on a link: the texts of
    the spans hold the brackets of the link and the [#] of the tag, and
    the colon, slashes and dot of the link, which are separators. *)
Lemma span_texts_keep_delimiters :
  spans_text (tokenize wiki_config (λ _, None) sample_line emptyCache)
  = lit "See[[note]]#ideahere"
  ∧ non_delimiters sample_line = lit "Seenoteideahere"
  ∧ spans_text (tokenize wiki_config (λ _, None) sample_line emptyCache)
    ≠ non_delimiters sample_line
  ∧ spans_text (tokenize wiki_config (λ _, None) (lit "https://example.com")
                  emptyCache)
    = lit "https://example.com"
  ∧ non_delimiters (lit "https://example.com") = lit "httpsexamplecom".
Proof. repeat split. by vm_compute. Qed.

Lemma tokenize_covers_line_witness :
  text (mkSpan Link (lit "[[note]]") 4 12 None) = substring sample_line 4 12
  ∧ spans_text (tokenize wiki_config (λ _, None) (lit "so it goes") emptyCache)
    = lit "soitgoes".
Proof.
  destruct (tokenize_covers_line wiki_config (λ _, None) emptyCache sample_line
              wiki_config_ok) as (_ & Htext & _).
  destruct (tokenize_covers_line wiki_config (λ _, None) emptyCache
              (lit "so it goes") wiki_config_ok) as (_ & _ & _ & _ & Hruns & _).
  split.
  - apply (Htext (mkSpan Link (lit "[[note]]") 4 12 None)).
    vm_compute. right. left.
  - rewrite Hruns; [reflexivity|].
    intros s Hs.
    assert (tokenize wiki_config (λ _, None) (lit "so it goes") emptyCache
            = [mkSpan Word (lit "so") 0 2 (Some true);
               mkSpan Word (lit "it") 3 5 (Some true);
               mkSpan Word (lit "goes") 6 10 (Some true)]) as Hspans
      by (vm_compute; reflexivity).
    rewrite Hspans in Hs.
    repeat (apply elem_of_cons in Hs as [->|Hs]; [reflexivity|]).
    exfalso. exact (proj1 (elem_of_nil s) Hs).
Defined.

Lemma special_spans_take_priority_witness :
  ∃ i re,
    priority wiki_config !! i = Some (Link, re)
    ∧ re (drop 4 sample_line) = Some 8.
Proof.
  destruct (special_spans_take_priority wiki_config (λ _, None) emptyCache)
    as (_ & Hwin & _).
  destruct (Hwin sample_line (mkSpan Link (lit "[[note]]") 4 12 None))
    as (i & re & Hi & Hre & _).
  - vm_compute. right. left.
  - reflexivity.
  - by exists i, re.
Defined.

Lemma check_fails_open_witness :
  (check (λ _, None) (lit "foo") emptyCache).1 = true
  ∧ spellcheckCache (check (λ _, None) (lit "foo") emptyCache).2 = ∅.
Proof.
  destruct (check_fails_open (λ _, None) (lit "foo") emptyCache)
    as [Hmiss _].
  destruct Hmiss as (_ & Hopen & _); [reflexivity|].
  destruct Hopen as (Hr & He & _); [reflexivity|].
  split; [exact Hr | exact He].
Defined.

(** C5, as stated, fails: the line [foo] scanned while the dictionary is
    not ready is resolved to correct (and the answer is not cached);
    scanned again once the dictionary knows [foo] to be wrong, the same
    line gives another span. *)
Lemma rescan_after_dictionary_loads :
  spans (scanRecord wiki_config (λ _, None)
           (mkLine 0 (lit "foo") [] true) emptyCache).1
    = [mkSpan Word (lit "foo") 0 3 (Some true)]
  ∧ spans (scanRecord wiki_config (λ _, Some false)
             (scanRecord wiki_config (λ _, None)
                (mkLine 0 (lit "foo") [] true) emptyCache).1
             (scanRecord wiki_config (λ _, None)
                (mkLine 0 (lit "foo") [] true) emptyCache).2).1
    = [mkSpan Word (lit "foo") 0 3 (Some false)].
Proof. split; reflexivity. Qed.

Lemma rescan_with_same_answers_witness :
  spans (scanRecord wiki_config (λ _, Some false)
           (scanRecord wiki_config (λ _, Some false)
              (mkLine 0 (lit "foo") [] true) emptyCache).1
           (scanRecord wiki_config (λ _, Some false)
              (mkLine 0 (lit "foo") [] true) emptyCache).2).1
  = spans (scanRecord wiki_config (λ _, Some false)
             (mkLine 0 (lit "foo") [] true) emptyCache).1.
Proof.
  apply (rescan_with_same_answers wiki_config (λ _, Some false)
           (λ _, Some false) (mkLine 0 (lit "foo") [] true) emptyCache).
  reflexivity.
Defined.

Lemma numbers_and_urls_are_not_checked_witness :
  annotate wiki_config (λ _, Some false) (lit "https://example.com") emptyCache
  = ([mkSpan URL (lit "https://example.com") 0 19 None], emptyCache).
Proof.
  destruct (numbers_and_urls_are_not_checked wiki_config (λ _, Some false)
              emptyCache) as (_ & _ & _ & _ & _ & Hurl).
  apply Hurl. reflexivity.
Defined.

(** A document of three lines, and an edit of its middle line. *)
Lemma edit_marks_one_line_witness :
  (getSpans wiki_config (λ _, Some true) 0
     (onBufferChange (λ _, lit "tow") [1] 0
        (load wiki_config (λ _, Some true)
           [lit "one"; lit "two"; lit "three"]))).1
  = [mkSpan Word (lit "one") 0 3 (Some true)].
Proof.
  destruct (edit_marks_one_line wiki_config (λ _, Some true) (λ _, lit "tow") 1
              (load wiki_config (λ _, Some true)
                 [lit "one"; lit "two"; lit "three"]))
    as (_ & _ & _ & Hsame & _).
  rewrite (Hsame 0); [reflexivity|lia].
Defined.

End SpellcheckFacts.



(** ** RecentDocsProvider: calls in sequence *)

Module RecentDocsCalls.
Import JS Heap HeapFacts RecentDocs RecentDocsFacts.

Section Provider.
Context {Doc : Type} `{EqDecision Doc}.
Variable path : Doc → str.

Lemma add_docs_head doc l :
  ∃ m, add_docs path doc l = doc :: take 99 m.
Proof.
  unfold add_docs, unshift, slice0.
  destruct (find _ l); simpl; eauto.
Qed.

(** X1: adding the same document twice in a row leaves the list as one
    [add] leaves it, whatever the list was. *)
Theorem add_twice (platform platform' : str) (doc : Doc) (p : provider) :
  recentDocs (add path platform' doc (add path platform doc p))
  = recentDocs (add path platform doc p).
Proof.
  unfold add. cbn [recentDocs].
  destruct (add_docs_head doc (recentDocs p)) as [m Hm]. rewrite Hm.
  rewrite (add_docs_present path doc (doc :: take 99 m) 0 doc).
  - simpl. by rewrite take_take.
  - apply list_find_Some. split; [done|]. split; [done|]. intros j y _ Hj. lia.
Qed.

(** X2: [add] keeps the other entries in their order.  The list after
    [add(doc)] is [doc], then the first 99 of the entries with another
    path; nothing else is lost unless the list was full and the path new,
    and then the last entry is the one lost. *)
Theorem add_keeps_order (calls : list (@call Doc)) (platform : str) (doc : Doc) :
  let before := recentDocs (run path calls) in
  let others := filter (λ e, path e ≠ path doc) before in
  let docs := recentDocs (add path platform doc (run path calls)) in
  docs = doc :: take 99 others
  ∧ (length before < 100 ∨ path doc ∈ paths path before → docs = doc :: others)
  ∧ (length before = 100 → path doc ∉ paths path before →
       docs = doc :: take 99 before).
Proof.
  intros before others docs. subst docs. unfold add. cbn [recentDocs].
  fold before. destruct (run_inv path calls) as [Hlen Hnd]. fold before in Hlen, Hnd.
  rewrite add_docs_filter by done. fold others.
  split; [done|]. split.
  - intros Hroom. simpl. f_equal. apply take_ge.
    pose proof (length_filter (λ e, path e ≠ path doc) before) as Hle.
    fold others in Hle.
    destruct Hroom as [Hlt|(e & He & Hin)%list_elem_of_fmap]; [lia|].
    assert (length others < length before); [|lia].
    apply (length_filter_lt _ _ e); [done|]. naive_solver.
  - intros _ Hnew. simpl. do 2 f_equal. by apply filter_other_paths.
Qed.

(** X3: [hasDocs()] is true exactly when the last call was an [add]. *)
Theorem hasDocs_after_calls (calls : list (@call Doc)) :
  hasDocs (run path calls) = true
  ↔ ∃ calls' platform doc, calls = calls' ++ [Add platform doc].
Proof.
  unfold hasDocs. rewrite bool_decide_eq_true.
  destruct calls as [|c calls _] using rev_ind.
  { simpl. split; [lia|]. intros (calls' & pl & doc & Heq).
    by destruct calls'. }
  unfold run. rewrite foldl_app. cbn [foldl]. fold (run path calls).
  destruct c as [pl doc|pl]; unfold perform, add, clear; cbn [recentDocs].
  - destruct (add_docs_head doc (recentDocs (run path calls))) as [m ->].
    split; [eauto|simpl; lia].
  - split; [simpl; lia|]. intros (calls' & pl' & doc & Heq).
    by apply app_inj_tail in Heq as [_ ?].
Qed.

Lemma run_list_from (p q : provider) (calls : list (@call Doc)) :
  recentDocs p = recentDocs q →
  recentDocs (foldl (perform path) p calls)
  = recentDocs (foldl (perform path) q calls).
Proof.
  revert p q. induction calls as [|c calls IH]; intros p q Hpq; [done|].
  simpl. apply IH. destruct c; simpl; [by rewrite Hpq|done].
Qed.

(** X4: [clear] forgets: the calls before a [clear] do not show in the list
    after it. *)
Theorem clear_forgets (calls calls' : list (@call Doc)) (platform : str) :
  recentDocs (run path (calls ++ Clear platform :: calls'))
  = recentDocs (run path calls').
Proof.
  unfold run. rewrite foldl_app. simpl. by apply run_list_from.
Qed.

(** X5: every call of [add] or [clear] emits ['update'] once, and where the
    platform is neither [darwin] nor [win32] the provider does nothing
    else: it never calls into the application's recent-documents menu. *)
Theorem one_update_per_call (calls : list (@call Doc)) :
  length (filter (λ e, e = EmitUpdate) (trace (run path calls))) = length calls
  ∧ ((∀ c, c ∈ calls → on_desktop (platform_of c) = false) →
       trace (run path calls) = replicate (length calls) EmitUpdate).
Proof.
  induction calls as [|c calls [IH1 IH2]] using rev_ind; [done|].
  unfold run. rewrite foldl_app. cbn [foldl]. fold (run path calls).
  rewrite length_app. simpl. split.
  - destruct c as [pl doc|pl]; unfold perform, add, clear; cbn [trace];
      rewrite !filter_app, !length_app, IH1;
      destruct (on_desktop _); simpl; lia.
  - intros Hlinux.
    assert (on_desktop (platform_of c) = false) as Hc.
    { apply Hlinux. apply elem_of_app. right. by left. }
    rewrite Nat.add_1_r, replicate_S_end, <- IH2.
    + destruct c as [pl doc|pl]; simpl in Hc; unfold perform, add, clear;
        cbn [trace]; by rewrite Hc.
    + intros c' Hc'. apply Hlinux. apply elem_of_app. by left.
Qed.

End Provider.

Lemma add_keeps_order_witness :
  recentDocs (add id (lit "linux") (lit "/c.md")
                (run id [Add (lit "linux") (lit "/a.md");
                         Add (lit "linux") (lit "/b.md")]))
  = [lit "/c.md"; lit "/b.md"; lit "/a.md"].
Proof.
  destruct (add_keeps_order id
              [Add (lit "linux") (lit "/a.md"); Add (lit "linux") (lit "/b.md")]
              (lit "linux") (lit "/c.md")) as (_ & Hroom & _).
  rewrite Hroom; [reflexivity|]. left. vm_compute. lia.
Defined.

Lemma one_update_per_call_witness :
  trace (run id [Add (lit "linux") (lit "/a.md"); Clear (lit "linux")])
  = [EmitUpdate; EmitUpdate].
Proof.
  destruct (one_update_per_call id
              [Add (lit "linux") (lit "/a.md"); Clear (lit "linux")])
    as [_ Hlinux].
  rewrite Hlinux; [reflexivity|].
  intros c [->|[->|Hc]%elem_of_cons]%elem_of_cons; [reflexivity..|].
  by apply elem_of_nil in Hc.
Defined.

(** *** [get] *)

Lemma Forall_exists_Forall2 {A B} (R : A → B → Prop) (l : list A) :
  Forall (λ x, ∃ y, R x y) l → ∃ k, Forall2 R l k.
Proof.
  induction 1 as [|x l [y Hy] _ [k Hk]]; [by exists []|].
  exists (y :: k). by constructor.
Qed.

(** What [serialize] writes is the text of a tree the value stands for. *)
Lemma serialize_sound fuel :
  ∀ stack h v oj,
    serialize fuel stack h v = Some oj → ∃ t, denotes h v t ∧ to_json t = oj.
Proof.
  induction fuel as [|fuel IH]; intros stack h v oj;
    (destruct v as [| |b|[z| | |]|s|l]; simpl;
     [intros [= <-]; eexists; split; [constructor|done]..|]).
  { by case_bool_decide. }
  case_bool_decide; [done|].
  destruct (h !! l) as [[elems|props]|] eqn:Hl; [| |done].
  - destruct (mapM _ elems) as [js|] eqn:Hjs; [|done]. simpl.
    intros [= <-]. apply mapM_Some in Hjs.
    assert (∃ ts, Forall2 (λ e t, denotes h e t) elems ts
                  ∧ js = (λ t, default JNull (to_json t)) <$> ts)
      as (ts & Hts & ->).
    { clear Hl. induction Hjs as [|e j elems js Hj _ (ts & Hts & ->)].
      { by exists []. }
      destruct (serialize fuel (l :: stack) h e) as [oj|] eqn:He; [|done].
      destruct (IH _ _ _ _ He) as (t & Ht & <-). simpl in Hj.
      injection Hj as <-. exists (t :: ts). split; [by constructor|done]. }
    exists (TArr ts). split; [by eapply den_arr|done].
  - destruct (mapM _ props) as [ps|] eqn:Hps; [|done]. simpl.
    intros [= <-]. apply mapM_Some in Hps.
    assert (∃ qs, Forall2 (λ p q, p.1 = q.1 ∧ denotes h p.2 q.2) props qs
                  ∧ ps = (λ q, (q.1, to_json q.2)) <$> qs)
      as (qs & Hqs & ->).
    { clear Hl. induction Hps as [|p j props ps Hj _ (qs & Hqs & ->)].
      { by exists []. }
      destruct (serialize fuel (l :: stack) h p.2) as [oj|] eqn:He; [|done].
      destruct (IH _ _ _ _ He) as (t & Ht & <-). simpl in Hj.
      injection Hj as <-. exists ((p.1, t) :: qs).
      split; [by constructor|done]. }
    exists (TObj qs). split; [by eapply den_obj|].
    simpl. by rewrite omap_props.
Qed.

Lemma get_data h (p : provider) ts :
  Forall2 (denotes h) (recentDocs p) ts →
  get h p = Some (parse (JArr ((λ t, default JNull (to_json t)) <$> ts)) h).
Proof.
  intros Hdocs. unfold get. by rewrite (stringify_array_denotes _ _ _ Hdocs).
Qed.

(** X6: [get()] throws exactly when some descriptor of the list is no
    finite data (it holds itself, directly or not).  So it never throws on
    an empty list, whatever the heap holds: it returns a new empty
    array. *)
Theorem get_throws_on_cycles_only (h : heap) (p : provider) :
  (get h p = None ↔ ¬ ∃ ts, Forall2 (denotes h) (recentDocs p) ts)
  ∧ (recentDocs p = [] → get h p = Some (h ++ [OArr []], VRef (length h))).
Proof.
  split; [|by unfold get; intros ->].
  split.
  - intros Hget [ts Hts]. by rewrite (get_data _ _ _ Hts) in Hget.
  - intros Hno. destruct (get h p) as [r|] eqn:Hget; [|done].
    destruct Hno. unfold get, stringify_array in Hget.
    destruct (mapM _ (recentDocs p)) as [js|] eqn:Hjs; [|done].
    apply mapM_Some in Hjs. apply Forall_exists_Forall2.
    apply Forall2_Forall_l with (Q := λ e, ∃ t, denotes h e t) in Hjs; [done|].
    apply Forall_forall. intros j _ e He. unfold stringify in He.
    destruct (serialize _ _ _ e) as [oj|] eqn:Hs; [|done].
    destruct (serialize_sound _ _ _ _ _ Hs) as (t & Ht & _). by exists t.
Qed.


Lemma get_throws_on_cycles_only_witness :
  get [OObj [(lit "self", VRef 0)]] (Provider [] [])
  = Some ([OObj [(lit "self", VRef 0)]; OArr []], VRef 1).
Proof.
  destruct (get_throws_on_cycles_only [OObj [(lit "self", VRef 0)]]
              (Provider [] [])) as [_ Hempty].
  apply Hempty. reflexivity.
Defined.

(** *** Copies *)

Lemma val_below_le n n' v : n ≤ n' → val_below n v → val_below n' v.
Proof. destruct v; simpl; lia || done. Qed.

Lemma obj_below_le n n' o : n ≤ n' → obj_below n o → obj_below n' o.
Proof.
  intros Hle. destruct o; simpl; intros Hall;
    (eapply Forall_impl; [exact Hall|]); intros ?; by apply val_below_le.
Qed.

Lemma thread_encloses {A B} (G : nat → B → Prop)
    (f : A → heap → heap * B) xs :
  (∀ n n' y, n ≤ n' → G n y → G n' y) →
  Forall (encloses G f) xs →
  ∀ h, ∃ new,
    (thread f xs h).1 = h ++ new
    ∧ Forall (obj_below (length (h ++ new))) new
    ∧ Forall (G (length (h ++ new))) (thread f xs h).2.
Proof.
  intros HG Hall. induction Hall as [|x xs Hx _ IH]; intros h.
  - exists []. simpl. rewrite app_nil_r. repeat split; constructor.
  - destruct (Hx h) as (new1 & Hh1 & Hnew1 & Hy).
    simpl. destruct (f x h) as [h1 y] eqn:Hf. simpl in *. subst h1.
    destruct (IH (h ++ new1)) as (new2 & Hh2 & Hnew2 & Hys).
    destruct (thread f xs (h ++ new1)) as [h2 ys] eqn:Ht. simpl in *. subst h2.
    exists (new1 ++ new2). rewrite app_assoc.
    split; [done|]. split; [|constructor; [|done]].
    + apply Forall_app. split; [|done].
      eapply Forall_impl; [exact Hnew1|]. intros o. apply obj_below_le.
      rewrite !length_app. lia.
    + eapply HG; [|exact Hy]. rewrite !length_app. lia.
Qed.

Lemma parse_encloses j : encloses val_below parse j.
Proof.
  induction j as [|b|z|s|js IH|ps IH] using json_ind'; intros h;
    try (exists []; simpl; rewrite app_nil_r; repeat split; constructor).
  - destruct (thread_encloses val_below parse js val_below_le IH h)
      as (new & Hh' & Hnew & Hvs).
    simpl. destruct (thread parse js h) as [h' vs]. simpl in *. subst h'.
    exists (new ++ [OArr vs]). rewrite app_assoc.
    split; [done|]. split.
    + apply Forall_app. split.
      * eapply Forall_impl; [exact Hnew|]. intros o. apply obj_below_le.
        rewrite !length_app. lia.
      * apply Forall_singleton. simpl.
        eapply Forall_impl; [exact Hvs|]. intros v. apply val_below_le.
        rewrite !length_app. lia.
    + simpl. rewrite !length_app. simpl. lia.
  - destruct (thread_encloses (λ n (q : str * val), val_below n q.2)
                (λ p h, let '(h, v) := parse p.2 h in (h, (p.1, v))) ps)
      with (h := h) as (new & Hh' & Hnew & Hvs).
    { intros n n' q. apply val_below_le. }
    { eapply Forall_impl; [exact IH|]. intros p Hp h0.
      destruct (Hp h0) as (new & H1 & H2 & H3).
      exists new. destruct (parse p.2 h0) as [h1 v]. done. }
    simpl.
    destruct (thread (λ p h, let '(h, v) := parse p.2 h in (h, (p.1, v))) ps h)
      as [h' vs]. simpl in *. subst h'.
    exists (new ++ [OObj vs]). rewrite app_assoc.
    split; [done|]. split.
    + apply Forall_app. split.
      * eapply Forall_impl; [exact Hnew|]. intros o. apply obj_below_le.
        rewrite !length_app. lia.
      * apply Forall_singleton. simpl.
        eapply Forall_impl; [exact Hvs|]. intros q. apply val_below_le.
        rewrite !length_app. lia.
    + simpl. rewrite !length_app. simpl. lia.
Qed.

(** From a value that refers into a closed range of addresses, only that
    range is reached. *)
Lemma reaches_within h lo hi v l :
  (∀ l o, h !! l = Some o → lo ≤ l < hi → obj_fresh lo o ∧ obj_below hi o) →
  reaches h v l → val_fresh lo v → val_below hi v → lo ≤ l < hi.
Proof.
  intros Hheap.
  induction 1 as [l|l elems e l' Hl He _ IH|l props p l' Hl Hp _ IH];
    intros Hlo Hhi; simpl in Hlo, Hhi; [done| |].
  - destruct (Hheap l _ Hl (conj Hlo Hhi)) as [Hf Hb]. simpl in Hf, Hb.
    rewrite Forall_forall in Hf, Hb. apply IH; [by apply Hf|by apply Hb].
  - destruct (Hheap l _ Hl (conj Hlo Hhi)) as [Hf Hb]. simpl in Hf, Hb.
    rewrite Forall_forall in Hf, Hb.
    apply IH; [by apply (Hf p)|by apply (Hb p)].
Qed.

Lemma get_Some_data h (p : provider) r :
  get h p = Some r → ∃ ts, Forall2 (denotes h) (recentDocs p) ts.
Proof.
  intros Hget. unfold get, stringify_array in Hget.
  destruct (mapM _ (recentDocs p)) as [js|] eqn:Hjs; [|done].
  apply mapM_Some in Hjs. apply Forall_exists_Forall2.
  apply Forall2_Forall_l with (Q := λ e, ∃ t, denotes h e t) in Hjs; [done|].
  apply Forall_forall. intros j _ e He. unfold stringify in He.
  destruct (serialize _ _ _ e) as [oj|] eqn:Hs; [|done].
  destruct (serialize_sound _ _ _ _ _ Hs) as (t & Ht & _). by exists t.
Qed.

(** X7: every call of [get()] makes its own copy.  After a [get()] that
    returned, the next [get()] returns too; the two arrays are
    structurally equal, and no object is reached from both. *)
Theorem get_twice (h h1 : heap) (p : provider) (r1 : val) :
  get h p = Some (h1, r1) →
  ∃ h2 r2,
    get h1 p = Some (h2, r2)
    ∧ structurally_equal h2 r1 h2 r2
    ∧ ∀ l, reaches h2 r1 l → reaches h2 r2 l → False.
Proof.
  intros Hget. destruct (get_Some_data _ _ _ Hget) as [ts Hts].
  rewrite (get_data _ _ _ Hts) in Hget.
  set (j := JArr ((λ t, default JNull (to_json t)) <$> ts)) in *.
  destruct (parse_allocates j h) as (new1 & Hh1 & Hnew1 & Hr1 & Hden1).
  destruct (parse_encloses j h) as (new1' & Hh1' & Hbelow1 & Hr1').
  rewrite Hh1 in Hh1'. apply app_inv_head in Hh1' as <-.
  destruct (parse j h) as [h1' r1']. injection Hget as -> ->.
  cbn [fst snd] in *. rewrite <- Hh1 in Hbelow1, Hr1'.
  assert (Forall2 (denotes h1) (recentDocs p) ts) as Hts1.
  { rewrite Hh1. eapply Forall2_impl; [exact Hts|].
    intros v t. apply denotes_extend. }
  destruct (parse_allocates j h1) as (new2 & Hh2 & Hnew2 & Hr2 & Hden2).
  exists (parse j h1).1, (parse j h1).2.
  split; [rewrite (get_data _ _ _ Hts1); fold j; by destruct (parse j h1)|].
  split.
  { exists (of_json j). split; [|done]. rewrite Hh2. by apply denotes_extend. }
  intros l Hl1 Hl2.
  assert (length h ≤ l < length h1) as [_ Hlt].
  { eapply reaches_within; [|exact Hl1|exact Hr1|exact Hr1'].
    intros l0 o Hl0 [Hge Hlt]. rewrite Hh2 in Hl0.
    rewrite lookup_app_l in Hl0 by done. rewrite Hh1 in Hl0.
    apply lookup_app_Some in Hl0 as [Hl0|[_ Hl0]].
    { apply lookup_lt_Some in Hl0. lia. }
    apply list_elem_of_lookup_2 in Hl0.
    rewrite Forall_forall in Hnew1, Hbelow1. split; [by apply Hnew1|by apply Hbelow1]. }
  assert (length h1 ≤ l); [|lia].
  eapply reaches_fresh; [|exact Hl2|exact Hr2].
  intros l0 o Hl0 Hge. rewrite Hh2 in Hl0.
  apply lookup_app_Some in Hl0 as [Hl0|[_ Hl0]].
  { apply lookup_lt_Some in Hl0. lia. }
  rewrite Forall_forall in Hnew2. apply Hnew2.
  by eapply list_elem_of_lookup_2.
Qed.

Lemma get_twice_witness :
  ∃ h1 r1 h2 r2,
    get sample_heap (Provider [VRef 0] []) = Some (h1, r1)
    ∧ get h1 (Provider [VRef 0] []) = Some (h2, r2)
    ∧ structurally_equal h2 r1 h2 r2.
Proof.
  destruct (get_twice sample_heap
              (sample_heap
                 ++ [OArr [VStr (lit "todo")];
                     OObj [(lit "path", VStr (lit "/a.md")); (lit "tags", VRef 2)];
                     OArr [VRef 3]])
              (Provider [VRef 0] []) (VRef 4))
    as (h2 & r2 & Hget2 & Heq & _); [reflexivity|].
  eexists _, _, h2, r2. split; [reflexivity|]. split; [exact Hget2|exact Heq].
Defined.

(** X8: a document that was added is what [get()] returns first.  When the
    list after [add(doc)] is data, the first element of the copy stands
    for the JSON image of what [doc] stands for, and is structurally equal
    to [doc] when that is plain JSON data. *)
Theorem add_then_get (path : val → str) (h : heap) (platform : str)
    (doc : val) (p : provider) (ts : list tree) :
  Forall2 (denotes h) (recentDocs (add path platform doc p)) ts →
  ∃ t h' a c copies,
    head ts = Some t
    ∧ denotes h doc t
    ∧ get h (add path platform doc p) = Some (h', VRef a)
    ∧ h' !! a = Some (OArr (c :: copies))
    ∧ denotes h' c (json_image t)
    ∧ (is_json t = true → structurally_equal h doc h' c).
Proof.
  intros Hts. rewrite (get_data _ _ _ Hts).
  revert Hts. unfold add at 1. cbn [recentDocs].
  destruct (add_docs_head path doc (recentDocs p)) as [m ->].
  intros Hts. inversion Hts as [|? t ? ts' Hdoc Hrest]; subst.
  set (j := JArr ((λ t, default JNull (to_json t)) <$> t :: ts')).
  destruct (parse_allocates j h) as (new & Hh' & _ & _ & Hden).
  destruct (parse j h) as [h' r]. cbn [fst snd] in *.
  unfold j in Hden. rewrite fmap_cons in Hden. cbn [of_json] in Hden.
  rewrite fmap_cons in Hden.
  inversion Hden as [| | | | |a copies0 ? Ha Hcopies|]; subst.
  inversion Hcopies as [|c ? copies ? Hc _]; subst.
  exists t, (h ++ new), a, c, copies.
  repeat split; try done.
  intros Hjson. exists t. split; [done|].
  by rewrite <- (json_image_id t Hjson).
Qed.

Lemma add_then_get_witness :
  ∃ h' a c copies,
    get sample_heap (add (λ _, lit "/a.md") (lit "linux") (VRef 0) init)
    = Some (h', VRef a)
    ∧ h' !! a = Some (OArr (c :: copies))
    ∧ structurally_equal sample_heap (VRef 0) h' c.
Proof.
  destruct (add_then_get (λ _, lit "/a.md") sample_heap (lit "linux") (VRef 0)
              init [sample_tree])
    as (t & h' & a & c & copies & Ht & _ & Hget & Ha & _ & Heq).
  { repeat econstructor. }
  injection Ht as <-.
  exists h', a, c, copies. split; [exact Hget|]. split; [exact Ha|].
  apply Heq. reflexivity.
Defined.

End RecentDocsCalls.

(** ** TokenList: removing tokens, and what a token is *)

Module TokenListMore.
Import JS JSFacts TokenList TokenListFacts.

Lemma splice1_delete {A} (idx : nat) (arr : list A) :
  splice1 idx arr = delete idx arr.
Proof. unfold splice1. by rewrite delete_take_drop. Qed.

Lemma removeToken_emitted idx c :
  emitted (removeToken idx c) = Some (delete idx (value c)).
Proof. unfold removeToken. simpl. by rewrite map_token, splice1_delete. Qed.

(** X9: [removeToken(idx)] emits the list without its token at [idx], the
    others in their order, and leaves the input field as it is.  It adds
    nothing: a list without duplicates, or without whitespace-only tokens,
    stays so.  The emitted list is one shorter when [idx] is an index of
    the list, and is the list itself when it is not. *)
Theorem removeToken_removes_one (idx : nat) (c : component) :
  ∃ l, emitted (removeToken idx c) = Some l
       ∧ inputValue' (removeToken idx c) = inputValue c
       ∧ l = take idx (value c) ++ drop (S idx) (value c)
       ∧ l `sublist_of` value c
       ∧ (NoDup (value c) → NoDup l)
       ∧ (Forall (λ t, ¬ whitespace_only t) (value c) →
          Forall (λ t, ¬ whitespace_only t) l)
       ∧ (idx < length (value c) → S (length l) = length (value c))
       ∧ (length (value c) ≤ idx → l = value c).
Proof.
  exists (delete idx (value c)).
  split; [apply removeToken_emitted|]. split; [done|].
  split; [apply delete_take_drop|].
  pose proof (sublist_delete (value c) idx) as Hsub.
  split; [done|]. split; [|split; [|split]].
  - intros Hnd. by eapply sublist_NoDup.
  - intros Hall. by apply Forall_delete.
  - intros Hidx. rewrite length_delete; [lia|]. by apply lookup_lt_is_Some_2.
  - intros Hidx. rewrite delete_take_drop. rewrite take_ge by done.
    rewrite drop_ge by lia. apply app_nil_r.
Qed.

Lemma removeToken_removes_one_witness :
  emitted (removeToken 1 (Component [lit "md"; lit "txt"; lit "tex"] []))
  = Some [lit "md"; lit "tex"]
  ∧ NoDup [lit "md"; lit "tex"].
Proof.
  destruct (removeToken_removes_one 1
              (Component [lit "md"; lit "txt"; lit "tex"] []))
    as (l & Hl & _ & -> & _ & Hnd & _).
  split; [exact Hl|]. apply Hnd.
  apply (bool_decide_unpack (NoDup [lit "md"; lit "txt"; lit "tex"])).
  vm_compute. exact I.
Defined.

(** X10: removing the token that [handleKey] has just appended gives the
    list back as it was. *)
Theorem removeToken_undoes_handleKey (code : str) (c : component)
    (l : list str) (input : str) :
  emitted (handleKey code c) = Some l →
  emitted (removeToken (length (value c)) (Component l input))
  = Some (value c).
Proof.
  intros (-> & _)%handleKey_emitted.
  rewrite removeToken_emitted. simpl. f_equal.
  rewrite delete_take_drop, take_app_length.
  rewrite drop_ge by (rewrite length_app; simpl; lia).
  apply app_nil_r.
Qed.

Lemma removeToken_undoes_handleKey_witness :
  emitted (removeToken 1 (Component [lit "md"; lit "txt"] []))
  = Some [lit "md"].
Proof.
  apply (removeToken_undoes_handleKey (lit "Comma")
           (Component [lit "md"] (lit " txt "))).
  reflexivity.
Defined.

(** *** Trimmed strings *)

Lemma dropWhile_fixed {A} (p : A → bool) (l : list A) :
  (∀ x, head l = Some x → p x = false) → dropWhile p l = l.
Proof.
  destruct l as [|x l]; [done|]. intros Hx. simpl.
  by rewrite (Hx x eq_refl).
Qed.

Lemma dropWhile_idemp {A} (p : A → bool) (l : list A) :
  dropWhile p (dropWhile p l) = dropWhile p l.
Proof.
  apply dropWhile_fixed. intros x Hx.
  destruct (dropWhile p l) as [|y k] eqn:Hd; [done|].
  injection Hx as <-. by eapply dropWhile_head.
Qed.

(** [trimEnd] cuts a string at its end only. *)
Lemma trimEnd_prefix s :
  s = trimEnd s ++ rev (takeWhile is_whitespace (rev s)).
Proof.
  unfold trimEnd. rewrite <- rev_app_distr.
  by rewrite takeWhile_dropWhile, rev_involutive.
Qed.

Lemma trimEnd_idemp s : trimEnd (trimEnd s) = trimEnd s.
Proof.
  unfold trimEnd. by rewrite rev_involutive, dropWhile_idemp.
Qed.

Lemma trimEnd_head s x :
  head (trimEnd s) = Some x → head s = Some x.
Proof.
  intros Hx. rewrite (trimEnd_prefix s).
  by destruct (trimEnd s).
Qed.

Lemma trimStart_head s x :
  head (trimStart s) = Some x → is_whitespace x = false.
Proof.
  unfold trimStart. destruct (dropWhile is_whitespace s) as [|y k] eqn:Hd; [done|].
  intros [= <-]. by eapply dropWhile_head.
Qed.

Lemma trim_head s x : head (trim s) = Some x → is_whitespace x = false.
Proof.
  unfold trim. intros Hx%trimEnd_head. by eapply trimStart_head.
Qed.

Lemma trim_last s x : last (trim s) = Some x → is_whitespace x = false.
Proof.
  unfold trim, trimEnd.
  destruct (dropWhile is_whitespace (rev (trimStart s))) as [|y k] eqn:Hd;
    [done|].
  simpl. rewrite last_snoc. intros [= <-]. by eapply dropWhile_head.
Qed.

Lemma trim_idemp s : trim (trim s) = trim s.
Proof.
  unfold trim at 1.
  assert (trimStart (trim s) = trim s) as ->.
  { apply dropWhile_fixed. apply trim_head. }
  unfold trim. apply trimEnd_idemp.
Qed.

(** X11: a token that [handleKey] appends is a trimmed string: it is not
    empty, it neither starts nor ends with whitespace, and trimming leaves
    it as it is. *)
Theorem handleKey_appends_trimmed (code : str) (c : component) (l : list str) :
  emitted (handleKey code c) = Some l →
  ∃ t, l = value c ++ [t]
       ∧ t ≠ []
       ∧ trim t = t
       ∧ (∀ x, head t = Some x → is_whitespace x = false)
       ∧ (∀ x, last t = Some x → is_whitespace x = false).
Proof.
  intros (-> & Hne & _)%handleKey_emitted.
  exists (trim (inputValue c)). split; [done|]. split; [done|].
  split; [apply trim_idemp|]. split; [apply trim_head|apply trim_last].
Qed.

Lemma handleKey_appends_trimmed_witness :
  ∃ t, [lit "md"; lit "txt"] = [lit "md"] ++ [t] ∧ trim t = t.
Proof.
  destruct (handleKey_appends_trimmed (lit "Comma")
              (Component [lit "md"] (lit " txt ")) [lit "md"; lit "txt"])
    as (t & Ht & _ & Htrim & _); [reflexivity|].
  exists t. split; [exact Ht|exact Htrim].
Defined.

End TokenListMore.

(** ** Editor.vue: the [openFiles] watcher *)

Module EditorFacts.
Import JS RecentDocs RecentDocsFacts Editor.

Section OpenDocuments.
Context {Doc : Type} `{EqDecision Doc} {File : Type}.
Variable docPath : Doc → str.
Variable filePath : File → str.
Variable openFiles : list File.

(** [indexOf] of an element of the array is the index of its first
    occurrence. *)
Lemma indexOf_elem (docs : list Doc) i doc :
  docs !! i = Some doc →
  ∃ k, indexOf docs doc = Z.of_nat k ∧ docs !! k = Some doc ∧ k ≤ i.
Proof.
  intros Hi. unfold indexOf.
  destruct (list_find (λ e, e = doc) docs) as [[k d]|] eqn:Hfind.
  - apply list_find_Some in Hfind as (Hk & -> & Hfirst).
    exists k. split; [done|]. split; [done|].
    destruct (decide (k ≤ i)) as [|Hgt]; [done|].
    destruct (Hfirst i doc Hi); [lia|done].
  - apply list_find_None in Hfind. rewrite Forall_forall in Hfind.
    destruct (Hfind doc); [by eapply list_elem_of_lookup_2|done].
Qed.

Lemma indexOf_first (pre rest : list Doc) doc :
  doc ∉ pre → indexOf (pre ++ doc :: rest) doc = Z.of_nat (length pre).
Proof.
  intros Hpre.
  destruct (indexOf_elem (pre ++ doc :: rest) (length pre) doc)
    as (k & -> & Hk & Hle); [by apply list_lookup_middle|].
  f_equal. destruct (decide (k = length pre)) as [|Hne]; [done|].
  rewrite lookup_app_l in Hk by lia.
  destruct Hpre. by eapply list_elem_of_lookup_2.
Qed.

Lemma filter_delete_other (P : Doc → Prop) `{∀ d, Decision (P d)}
    (docs : list Doc) (k : nat) doc :
  docs !! k = Some doc → ¬ P doc → filter P (delete k docs) = filter P docs.
Proof.
  revert k. induction docs as [|d docs IH]; intros [|k] Hk Hdoc; try done;
    simpl in *.
  - injection Hk as ->. by rewrite filter_cons_False.
  - rewrite !filter_cons. destruct (decide (P d)); [f_equal|]; by eapply IH.
Qed.

(** Once the index is past the end the loop is over. *)
Lemma iterate_done fuel i (docs : list Doc) :
  length docs ≤ i → iterate docPath filePath fuel openFiles i docs = docs.
Proof.
  intros Hi. destruct fuel; [done|]. simpl.
  by rewrite lookup_ge_None_2.
Qed.

Lemma step_shrinks (docs : list Doc) doc :
  length (splice (indexOf docs doc) 1 docs) ≤ length docs.
Proof.
  unfold splice. rewrite length_app, length_take, length_drop. lia.
Qed.

(** The length of the array is fuel enough: more fuel changes nothing. *)
Lemma iterate_fuel fuel :
  ∀ fuel' i (docs : list Doc),
    length docs ≤ i + fuel → length docs ≤ i + fuel' →
    iterate docPath filePath fuel openFiles i docs = iterate docPath filePath fuel' openFiles i docs.
Proof.
  induction fuel as [|fuel IH]; intros fuel' i docs Hf Hf'.
  { rewrite (iterate_done fuel') by lia. done. }
  destruct fuel' as [|fuel'].
  { rewrite (iterate_done (S fuel)) by lia. done. }
  simpl. destruct (docs !! i) as [doc|]; [|done].
  destruct (found docPath filePath openFiles doc).
  - apply IH; lia.
  - pose proof (step_shrinks docs doc). apply IH; lia.
Qed.

(** What every run of the loop keeps. *)
Lemma iterate_keeps fuel :
  ∀ i (docs : list Doc),
    iterate docPath filePath fuel openFiles i docs `sublist_of` docs
    ∧ filter (stillOpen docPath filePath openFiles) (iterate docPath filePath fuel openFiles i docs) = filter (stillOpen docPath filePath openFiles) docs.
Proof.
  induction fuel as [|fuel IH]; intros i docs; [done|].
  simpl. destruct (docs !! i) as [doc|] eqn:Hi; [|done].
  destruct (found docPath filePath openFiles doc) as [f|] eqn:Hfound.
  { apply IH. }
  destruct (indexOf_elem docs i doc Hi) as (k & -> & Hk & _).
  rewrite splice_one by (by eapply lookup_lt_Some).
  destruct (IH (S i) (delete k docs)) as [IH1 IH2]. split.
  - etrans; [exact IH1|]. apply sublist_delete.
  - rewrite IH2. apply (filter_delete_other _ _ _ doc); [done|].
    unfold stillOpen. rewrite Hfound. by intros [? ?].
Qed.

(** X12: the [openFiles] watcher only removes documents, keeps the others
    in order, and never removes a document whose file is still open.  The
    loop is over within as many steps as the array is long. *)
Theorem watcher_keeps_open_documents (docs : list Doc) :
  openFilesWatcher docPath filePath openFiles docs `sublist_of` docs
  ∧ filter (stillOpen docPath filePath openFiles) (openFilesWatcher docPath filePath openFiles docs)
    = filter (stillOpen docPath filePath openFiles) docs
  ∧ (∀ doc, doc ∈ docs → stillOpen docPath filePath openFiles doc →
       doc ∈ openFilesWatcher docPath filePath openFiles docs)
  ∧ (∀ fuel, length docs ≤ fuel →
       iterate docPath filePath fuel openFiles 0 docs
       = openFilesWatcher docPath filePath openFiles docs).
Proof.
  unfold openFilesWatcher.
  destruct (iterate_keeps (length docs) 0 docs) as [Hsub Hfilter].
  split; [done|]. split; [done|]. split.
  - intros doc Hdoc Hopen.
    assert (doc ∈ filter (stillOpen docPath filePath openFiles) docs) as Hin by by apply list_elem_of_filter.
    rewrite <- Hfilter in Hin. by apply list_elem_of_filter in Hin as [_ ?].
  - intros fuel Hfuel. apply iterate_fuel; lia.
Qed.

(** With distinct documents the loop is a sweep: behind the index lies what
    the sweep has kept. *)
Lemma iterate_sweep fuel :
  ∀ (pre rest : list Doc),
    NoDup (pre ++ rest) → length rest ≤ fuel →
    iterate docPath filePath fuel openFiles (length pre) (pre ++ rest)
    = pre ++ sweep docPath filePath openFiles rest.
Proof.
  induction fuel as [|fuel IH]; intros pre rest Hnd Hfuel.
  { destruct rest; [done|simpl in Hfuel; lia]. }
  destruct rest as [|doc rest].
  { by rewrite iterate_done by (rewrite app_nil_r; lia). }
  simpl in Hfuel. simpl iterate. rewrite list_lookup_middle by done.
  simpl sweep.
  destruct (found docPath filePath openFiles doc) as [f|] eqn:Hfound.
  - rewrite (cons_middle doc pre rest), app_assoc.
    replace (S (length pre)) with (length (pre ++ [doc]))
      by (rewrite length_app; simpl; lia).
    rewrite IH; [by rewrite <- app_assoc| by rewrite <- app_assoc |lia].
  - apply NoDup_app in Hnd as (Hpre & Hdisj & Hrest).
    assert (doc ∉ pre) as Hnot.
    { intros Hin. apply (Hdisj doc Hin). by left. }
    rewrite indexOf_first by done.
    rewrite splice_one by (rewrite length_app; simpl; lia).
    assert (delete (length pre) (pre ++ doc :: rest) = pre ++ rest) as ->.
    { rewrite delete_take_drop.
      rewrite take_app_length.
      rewrite (cons_middle doc pre rest), app_assoc.
      replace (S (length pre)) with (length (pre ++ [doc]))
        by (rewrite length_app; simpl; lia).
      by rewrite drop_app_length. }
    destruct rest as [|next rest].
    { by rewrite iterate_done by (rewrite app_nil_r; lia). }
    rewrite (cons_middle next pre rest), app_assoc.
    replace (S (length pre)) with (length (pre ++ [next]))
      by (rewrite length_app; simpl; lia).
    rewrite IH; [by rewrite <- app_assoc| |simpl in Hfuel; lia].
    rewrite <- app_assoc. simpl. apply NoDup_app. split; [done|]. split.
    + intros d Hd Hd'. apply (Hdisj d Hd). by right.
    + by apply NoDup_cons in Hrest as [_ ?].
Qed.

Lemma sweep_apart (docs : list Doc) :
  closed_apart docPath filePath openFiles docs →
  sweep docPath filePath openFiles docs = filter (stillOpen docPath filePath openFiles) docs.
Proof.
  induction docs as [|doc docs IH]; [done|].
  intros [Hnext Hrest]. specialize (IH Hrest). simpl sweep.
  destruct (found docPath filePath openFiles doc) as [f|] eqn:Hfound.
  - rewrite filter_cons_True by (unfold stillOpen; by rewrite Hfound).
    by rewrite IH.
  - rewrite filter_cons_False
      by (unfold stillOpen; rewrite Hfound; by intros [? ?]).
    destruct docs as [|next docs]; [done|].
    destruct (Hnext eq_refl) as [f Hf]. rewrite <- IH. simpl. by rewrite Hf.
Qed.

(** X13: with distinct document objects the watcher is one sweep that drops
    a document whose file is closed and then passes over the document
    after it.  So, when no two documents with closed files are
    neighbours, it leaves exactly the documents whose files are open. *)
Theorem watcher_sweeps (docs : list Doc) :
  NoDup docs →
  openFilesWatcher docPath filePath openFiles docs
  = sweep docPath filePath openFiles docs
  ∧ (closed_apart docPath filePath openFiles docs →
       openFilesWatcher docPath filePath openFiles docs = filter (stillOpen docPath filePath openFiles) docs).
Proof.
  intros Hnd.
  assert (openFilesWatcher docPath filePath openFiles docs
          = sweep docPath filePath openFiles docs) as Heq.
  { unfold openFilesWatcher. by apply (iterate_sweep (length docs) [] docs). }
  split; [done|]. intros Hapart. rewrite Heq. by apply sweep_apart.
Qed.

End OpenDocuments.

(** Three documents; the files of [/b.md] and [/c.md] were closed at
    once, and [/c.md], which follows [/b.md], stays. *)
Example watcher_passes_over :
  openFilesWatcher id id [lit "/a.md"]
    [lit "/a.md"; lit "/b.md"; lit "/c.md"]
  = [lit "/a.md"; lit "/c.md"].
Proof. reflexivity. Qed.

Lemma watcher_keeps_open_documents_witness :
  lit "/c.md" ∈ openFilesWatcher id id [lit "/a.md"; lit "/c.md"]
                  [lit "/a.md"; lit "/b.md"; lit "/c.md"].
Proof.
  destruct (watcher_keeps_open_documents id id [lit "/a.md"; lit "/c.md"]
              [lit "/a.md"; lit "/b.md"; lit "/c.md"]) as (_ & _ & Hkeep & _).
  apply Hkeep.
  - right. right. left.
  - vm_compute. eauto.
Defined.

Lemma watcher_sweeps_witness :
  openFilesWatcher id id [lit "/a.md"; lit "/c.md"]
    [lit "/a.md"; lit "/b.md"; lit "/c.md"]
  = [lit "/a.md"; lit "/c.md"].
Proof.
  destruct (watcher_sweeps id id [lit "/a.md"; lit "/c.md"]
              [lit "/a.md"; lit "/b.md"; lit "/c.md"]) as [_ Hall].
  { apply (bool_decide_unpack (NoDup [lit "/a.md"; lit "/b.md"; lit "/c.md"])).
    vm_compute. exact I. }
  rewrite Hall; [reflexivity|].
  vm_compute. repeat split; try discriminate; eauto.
Defined.

End EditorFacts.

(** ** The spellchecker mode: what the cache keeps and what is checked *)

Module SpellcheckMore.
Import JS JSFacts Spellcheck SpellcheckFacts.

Lemma replaceAll_absent pattern replacement s :
  contains pattern s = false → replaceAll pattern replacement 0 s = s.
Proof.
  induction s as [|ch s IH]; [done|]. cbn [contains replaceAll].
  intros [Hhere Hlater]%orb_false_iff. rewrite Hhere. by rewrite IH.
Qed.

(** X14: [check] folds quotation characters only where the nine of its
    pattern stand in a row: any other term is looked up and sent as it
    is. *)
Theorem check_sends_term_as_it_is (d : dictionary) (term : str) (c : Cache) :
  contains smartQuotes term = false →
  sane term = term
  ∧ (spellcheckCache c !! term = None →
     queries (check d term c).2 = queries c ++ [(term, d term)]).
Proof.
  intros Habsent.
  assert (sane term = term) as Hsane by by apply replaceAll_absent.
  split; [done|]. intros Hmiss. unfold check. rewrite Hsane, Hmiss.
  by destruct (d term).
Qed.

Lemma check_sends_term_as_it_is_witness :
  sane (lit "it" ++ [8217%N] ++ lit "s") = lit "it" ++ [8217%N] ++ lit "s".
Proof.
  apply (check_sends_term_as_it_is (λ _, None)
           (lit "it" ++ [8217%N] ++ lit "s") emptyCache).
  reflexivity.
Defined.




Lemma check_keeps_entries d term c t b :
  spellcheckCache c !! t = Some b →
  spellcheckCache (check d term c).2 !! t = Some b.
Proof.
  intros Hentry. unfold check.
  destruct (spellcheckCache c !! sane term) as [b'|] eqn:Hterm; [done|].
  destruct (d (sane term)) as [b'|]; [|done]. cbn [snd spellcheckCache].
  rewrite lookup_insert_ne; [done|]. intros Heq. congruence.
Qed.

Lemma check_extends_queries d term c :
  queries c `prefix_of` queries (check d term c).2.
Proof.
  unfold check. destruct (spellcheckCache c !! sane term); [done|].
  destruct (d (sane term)); by eexists.
Qed.

Lemma token_cache cfg d stream c :
  cacheAfter (token cfg d stream c) = c
  ∨ ∃ term, cacheAfter (token cfg d stream c) = (check d term c).2.
Proof.
  destruct (token_cases cfg d stream c)
    as [(k & stream' & Hsp & ->)
       |[(Hsp & ch & Hpeek & Hch & ->)
        |(Hsp & Hd & [[Hn ->]|[(Hn & Hl' & ->)|(Hn & Hl' & ->)]])]];
    cbn [cacheAfter]; [by left..|]. right. by eexists.
Qed.

Lemma scan_keeps_entries cfg fuel :
  ∀ d stream c t b,
    spellcheckCache c !! t = Some b →
    spellcheckCache (scan fuel cfg d stream c).2 !! t = Some b.
Proof.
  induction fuel as [|fuel IH]; intros d stream c t b Hentry; [done|].
  rewrite scan_S. destruct (eol stream); [done|]. cbn [snd]. apply IH.
  destruct (token_cache cfg d stream c) as [->|(term & ->)]; [done|].
  by apply check_keeps_entries.
Qed.

Lemma scan_extends_queries cfg fuel :
  ∀ d stream c, queries c `prefix_of` queries (scan fuel cfg d stream c).2.
Proof.
  induction fuel as [|fuel IH]; intros d stream c; [done|].
  rewrite scan_S. destruct (eol stream); [done|]. cbn [snd].
  etrans; [|apply IH].
  destruct (token_cache cfg d stream c) as [->|(term & ->)]; [done|].
  apply check_extends_queries.
Qed.

(** X16: an entry of the cache is never overwritten.  [check], and so
    the pass of [token] over a whole line, leaves every entry as it is,
    whatever the dictionary answers meanwhile, and only adds to the
    messages sent; the entries go at [invalidate-dict] alone. *)
Theorem cache_entries_stay (cfg : config) (d : dictionary) (c : Cache)
    (t : str) (b : bool) :
  spellcheckCache c !! t = Some b →
  (∀ term, spellcheckCache (check d term c).2 !! t = Some b
           ∧ queries c `prefix_of` queries (check d term c).2)
  ∧ (∀ line, spellcheckCache (annotate cfg d line c).2 !! t = Some b
             ∧ queries c `prefix_of` queries (annotate cfg d line c).2)
  ∧ (∀ command, command ≠ lit "invalidate-dict" →
                onDictionaryProvider command c = c).
Proof.
  intros Hentry. split; [|split].
  - intros term. split; [by apply check_keeps_entries|].
    apply check_extends_queries.
  - intros line. unfold annotate. split; [by apply scan_keeps_entries|].
    apply scan_extends_queries.
  - intros command Hne. unfold onDictionaryProvider.
    by rewrite bool_decide_eq_false_2.
Qed.

(** The word [helo] is known to be wrong; a later scan of a line that
    holds it, with a dictionary that would now accept it, still marks
    it. *)
Lemma cache_entries_stay_witness :
  spellcheckCache
    (annotate wiki_config (λ _, Some true) (lit "say helo")
       (check (λ _, Some false) (lit "helo") emptyCache).2).2
  !! lit "helo" = Some false.
Proof.
  destruct (cache_entries_stay wiki_config (λ _, Some true)
              (check (λ _, Some false) (lit "helo") emptyCache).2
              (lit "helo") false) as (_ & Hline & _).
  - reflexivity.
  - apply Hline.
Defined.

End SpellcheckMore.
